(** * European option pricing: Bachelier and Black-Scholes closed forms

    A shallow embedding of [C++/stochastic.cpp] and [C++/main.cpp].

    Conventions of the embedding.
    - A C++ [double] is a real number ([R]); every arithmetic operator and
      every [<cmath>] call ([sqrt], [log], [exp]) is the corresponding
      operation on [R], [M_PI] is [PI].  Statements are therefore about exact
      real arithmetic, not about rounding.
    - [std::string] is [string]; [==] on strings is [String.eqb].
    - A function that may [throw] returns a [result]: either the value or
      the exception that left the function.
    - [std::cout] is the list of the items inserted so far.
    - [statistics.h], which declares [StandardNormalDistribution], is not
      among the sources: the pricers take the distribution as a parameter,
      and [StdNormal] below is the distribution the specification
      describes. *)

From Stdlib Require Import Reals Lra String List Bool.
Import ListNotations.

Open Scope R_scope.

(** ** Exceptions and results *)

Inductive exn : Type :=
| invalid_argument (what : string).

Inductive result (A : Type) : Type :=
| Return (a : A)
| Throw (e : exn).
Arguments Return {A} a.
Arguments Throw {A} e.

(** ** The interface of [statistics.h]

    [stochastic.cpp] declares a local [StandardNormalDistribution Z] and only
    calls [Z.pdf] and [Z.cdf] on it.  The class itself is not among the
    sources, so the pricers take it as a parameter. *)

Record StandardNormalDistribution : Type := {
  pdf : R -> R;
  cdf : R -> R
}.

(** [Spot == Strike] on doubles. *)
Definition Reqb (x y : R) : bool :=
  if Req_dec_T x y then true else false.

Lemma Reqb_true (x y : R) : x = y -> Reqb x y = true.
Proof. intros H; unfold Reqb; destruct (Req_dec_T x y); [reflexivity | contradiction]. Qed.

Lemma Reqb_false (x y : R) : x <> y -> Reqb x y = false.
Proof. intros H; unfold Reqb; destruct (Req_dec_T x y); [contradiction | reflexivity]. Qed.

(** ** stochastic.cpp *)

Section Pricers.

Variable Z : StandardNormalDistribution.

Definition type_error : exn :=
  invalid_argument "Option type is invalid. Check documentation".

Definition Bachelier (Spot Strike Vol T : R) (type : string) : result R :=
  let xs := (Strike - Spot) / (Spot * Vol * sqrt T) in
  if Reqb Spot Strike then
    Return (Vol * Spot * sqrt (0.5 * T / PI))
  else if (type =? "van call")%string then
    Return ((Spot - Strike) * cdf Z (- xs) + Spot * Vol * sqrt T * pdf Z (- xs))
  else if (type =? "van put")%string then
    Return ((Strike - Spot) * cdf Z xs + Spot * Vol * sqrt T * pdf Z xs)
  else if (type =? "con call")%string then
    Return (cdf Z (- xs))
  else if (type =? "con put")%string then
    Return (cdf Z xs)
  else if (type =? "aon call")%string then
    Return (Spot * cdf Z (- xs) + Spot * Vol * sqrt T * pdf Z (- xs))
  else if (type =? "aon put")%string then
    Return (Spot * cdf Z xs - Spot * Vol * sqrt T * pdf Z xs)
  else
    Throw type_error.

Definition BlackScholes (Spot Strike r Vol T : R) (type : string) : result R :=
  let d1 := (ln (Spot / Strike) + (r + 0.5 * Vol * Vol) * T) / (Vol * sqrt T) in
  let d2 := (ln (Spot / Strike) + (r - 0.5 * Vol * Vol) * T) / (Vol * sqrt T) in
  if Reqb Spot Strike then
    Return (Vol * Spot * sqrt (0.5 * T / PI))
  else if (type =? "van call")%string then
    Return (Spot * cdf Z d1 - Strike * exp (- r * T) * cdf Z d2)
  else if (type =? "van put")%string then
    Return (- Spot * cdf Z (- d1) + Strike * exp (- r * T) * cdf Z (- d2))
  else if (type =? "con call")%string then
    Return (exp (- r * T) * cdf Z d2)
  else if (type =? "con put")%string then
    Return (exp (- r * T) * cdf Z (- d2))
  else if (type =? "aon call")%string then
    Return (Spot * pdf Z d1)
  else if (type =? "aon put")%string then
    Return (Spot * pdf Z (- d1))
  else
    Throw type_error.

End Pricers.

(** ** main.cpp

    [main] inserts string literals, doubles and [endl] into [std::cout] and
    calls the pricers.  A program is a function from the stream written so
    far to the stream afterwards and either its value or the exception that
    escaped it.  An insertion chain [cout << a << f(...) << endl] is taken in
    the order it is written, left to right. *)

Inductive item : Type :=
| Str (s : string)
| Dbl (x : R)
| Endl.

Definition ostream : Type := list item.

(** The [int] that [main] returns. *)
Definition exit_code : Type := BinNums.Z.

Definition prog (A : Type) : Type := ostream -> ostream * result A.

Definition ret {A} (a : A) : prog A := fun out => (out, Return a).

Definition bind {A B} (m : prog A) (k : A -> prog B) : prog B :=
  fun out =>
    match m out with
    | (out', Return a) => k a out'
    | (out', Throw e) => (out', Throw e)
    end.

Definition put (t : item) : prog unit := fun out => (out ++ [t], Return tt).

(** The value of a call that may throw. *)
Definition call {A} (r : result A) : prog A := fun out => (out, r).

Declare Scope prog_scope.
Delimit Scope prog_scope with prog.
Notation "x <- m ;; k" := (bind m (fun x => k))
  (at level 61, m at next level, right associativity) : prog_scope.
Notation "m ;; k" := (bind m (fun _ => k))
  (at level 61, right associativity) : prog_scope.

(** [cout << label << value << endl;] *)
Definition print_line (label : string) (value : result R) : prog unit :=
  (put (Str label) ;;
   v <- call value ;;
   put (Dbl v) ;;
   put Endl)%prog.

Section Demo.

Variable Z : StandardNormalDistribution.

Definition main : prog exit_code :=
  let So := 50 in
  let K := 20 in
  let r := 0.13 in
  let sigma := 0.2 in
  let T := 4 in
  (put (Str "Bachelier model") ;; put Endl ;;
   print_line "Vanilla Call:" (Bachelier Z So K sigma T "van call") ;;
   print_line "Vanilla Put:" (Bachelier Z So K sigma T "van put") ;;
   print_line "CoN Call:" (Bachelier Z So K sigma T "con call") ;;
   print_line "CoN Put:" (Bachelier Z So K sigma T "con put") ;;
   print_line "AoN Call:" (Bachelier Z So K sigma T "aon call") ;;
   print_line "AoN Put:" (Bachelier Z So K sigma T "aon put") ;;
   put (Str "Black-Scholes model") ;; put Endl ;; put Endl ;;
   print_line "Vanilla Call:" (BlackScholes Z So K r sigma T "van call") ;;
   print_line "Vanilla Put:" (BlackScholes Z So K r sigma T "van put") ;;
   print_line "CoN Call:" (BlackScholes Z So K r sigma T "con call") ;;
   print_line "CoN Put:" (BlackScholes Z So K r sigma T "con put") ;;
   print_line "AoN Call:" (BlackScholes Z So K r sigma T "aon call") ;;
   print_line "AoN Put:" (BlackScholes Z So K r sigma T "aon putt") ;;
   ret 0%Z)%prog.

(** Running the program from an empty [cout]: what was written, and the
    exit code or the exception that reached the top level. *)
Definition run_main : ostream * result exit_code := main [].

End Demo.

(** ** The specification's vocabulary

    The option variant is a closed set of six tags, each with the token the
    pricers compare [type] against. *)

Inductive variant : Type :=
| VanillaCall | VanillaPut
| CashCall | CashPut
| AssetCall | AssetPut.

Definition token (v : variant) : string :=
  match v with
  | VanillaCall => "van call"
  | VanillaPut => "van put"
  | CashCall => "con call"
  | CashPut => "con put"
  | AssetCall => "aon call"
  | AssetPut => "aon put"
  end.

Definition recognized_types : list string :=
  map token [VanillaCall; VanillaPut; CashCall; CashPut; AssetCall; AssetPut].

Definition recognized (type : string) : Prop := In type recognized_types.

(** The standardized offsets, as the specification writes them. *)

Definition xs (Spot Strike Volatility Maturity : R) : R :=
  (Strike - Spot) / (Spot * Volatility * sqrt Maturity).

Definition d1 (Spot Strike Rate Volatility Maturity : R) : R :=
  (ln (Spot / Strike) + (Rate + 0.5 * Volatility ^ 2) * Maturity)
  / (Volatility * sqrt Maturity).

Definition d2 (Spot Strike Rate Volatility Maturity : R) : R :=
  (ln (Spot / Strike) + (Rate - 0.5 * Volatility ^ 2) * Maturity)
  / (Volatility * sqrt Maturity).

(** The table of variant formulas of the Bachelier pricer, as the
    specification writes it. *)
Definition Bachelier_table (Z : StandardNormalDistribution)
    (Spot Strike Volatility Maturity : R) (v : variant) : R :=
  let x := xs Spot Strike Volatility Maturity in
  match v with
  | VanillaCall =>
      (Spot - Strike) * cdf Z (- x) + Spot * Volatility * sqrt Maturity * pdf Z (- x)
  | VanillaPut =>
      (Strike - Spot) * cdf Z x + Spot * Volatility * sqrt Maturity * pdf Z x
  | CashCall => cdf Z (- x)
  | CashPut => cdf Z x
  | AssetCall =>
      Spot * cdf Z (- x) + Spot * Volatility * sqrt Maturity * pdf Z (- x)
  | AssetPut =>
      Spot * cdf Z x - Spot * Volatility * sqrt Maturity * pdf Z x
  end.

(** The table of variant formulas of the Black-Scholes pricer, as the
    specification writes it. *)
Definition BlackScholes_table (Z : StandardNormalDistribution)
    (Spot Strike Rate Volatility Maturity : R) (v : variant) : R :=
  let a := d1 Spot Strike Rate Volatility Maturity in
  let b := d2 Spot Strike Rate Volatility Maturity in
  match v with
  | VanillaCall => Spot * cdf Z a - Strike * exp (- (Rate * Maturity)) * cdf Z b
  | VanillaPut =>
      - (Spot * cdf Z (- a)) + Strike * exp (- (Rate * Maturity)) * cdf Z (- b)
  | CashCall => exp (- (Rate * Maturity)) * cdf Z b
  | CashPut => exp (- (Rate * Maturity)) * cdf Z (- b)
  | AssetCall => Spot * pdf Z a
  | AssetPut => Spot * pdf Z (- a)
  end.

(** The at-the-money closed form. *)
Definition at_the_money_value (Spot Volatility Maturity : R) : R :=
  Volatility * Spot * sqrt (0.5 * Maturity / PI).

(** Both pricers reject [type]. *)
Definition rejects (Z : StandardNormalDistribution)
    (Spot Strike Rate Volatility Maturity : R) (type : string) : Prop :=
  Bachelier Z Spot Strike Volatility Maturity type = Throw type_error /\
  BlackScholes Z Spot Strike Rate Volatility Maturity type = Throw type_error.

(** Cash-or-nothing parity of the Black-Scholes pricer: both calls return
    and the prices add up to the discount factor. *)
Definition cash_parity (Z : StandardNormalDistribution)
    (S K r sigma T : R) : Prop :=
  exists c p : R,
    BlackScholes Z S K r sigma T "con call" = Return c /\
    BlackScholes Z S K r sigma T "con put" = Return p /\
    c + p = exp (- (r * T)).

(** A pricer call returns a non-negative price. *)
Definition nonnegative (r : result R) : Prop :=
  exists v : R, r = Return v /\ 0 <= v.

(** What [main] has written when the last pricer call is reached. *)
Definition written (Z : StandardNormalDistribution) : ostream :=
  let B := Bachelier_table Z 50 20 0.2 4 in
  let BS := BlackScholes_table Z 50 20 0.13 0.2 4 in
  [ Str "Bachelier model"; Endl;
    Str "Vanilla Call:"; Dbl (B VanillaCall); Endl;
    Str "Vanilla Put:"; Dbl (B VanillaPut); Endl;
    Str "CoN Call:"; Dbl (B CashCall); Endl;
    Str "CoN Put:"; Dbl (B CashPut); Endl;
    Str "AoN Call:"; Dbl (B AssetCall); Endl;
    Str "AoN Put:"; Dbl (B AssetPut); Endl;
    Str "Black-Scholes model"; Endl; Endl;
    Str "Vanilla Call:"; Dbl (BS VanillaCall); Endl;
    Str "Vanilla Put:"; Dbl (BS VanillaPut); Endl;
    Str "CoN Call:"; Dbl (BS CashCall); Endl;
    Str "CoN Put:"; Dbl (BS CashPut); Endl;
    Str "AoN Call:"; Dbl (BS AssetCall); Endl;
    Str "AoN Put:" ].

(** ** The standard normal distribution

    The definite integral of a continuous function, from the Riemann
    integral of the standard library. *)

Section ContinuousIntegral.

Variable f : R -> R.
Hypothesis f_cont : continuity f.

Definition cont_integrable (a b : R) : Riemann_integrable f a b.
Proof.
  destruct (Rle_dec a b) as [h | h].
  - apply continuity_implies_RiemannInt; [exact h | intros x _; apply f_cont].
  - apply RiemannInt_P1, continuity_implies_RiemannInt;
      [apply Rlt_le, Rnot_le_lt, h | intros x _; apply f_cont].
Defined.

Definition integral (a b : R) : R := RiemannInt (cont_integrable a b).

End ContinuousIntegral.

Definition gauss (t : R) : R := exp (- (t * t)).

Lemma gauss_cont : continuity gauss.
Proof. unfold gauss; reg. Qed.

(** The integral of [exp (- t^2)] from [0] to [x]. *)
Definition gauss_int (x : R) : R := integral gauss gauss_cont 0 x.

(** [erf] of [<cmath>]: [2/sqrt(pi)] times the integral of [exp (- t^2)]
    from [0] to [x]. *)
Definition erf (x : R) : R := 2 / sqrt PI * gauss_int x.

(** Modelled from the spec: [StandardNormalDistribution::pdf] of
    [statistics.h], which is not among the sources.  The specification gives
    [pdf(x) = (1/sqrt(2 pi)) * exp(-x^2/2)]. *)
Definition normal_pdf (x : R) : R := 1 / sqrt (2 * PI) * exp (- (x * x) / 2).

(** Modelled from the spec: [StandardNormalDistribution::cdf] of
    [statistics.h], which is not among the sources.  The specification gives
    [cdf(x) = 0.5 * (1 + erf(x / sqrt 2))]. *)
Definition normal_cdf (x : R) : R := 0.5 * (1 + erf (x / sqrt 2)).

(** Modelled from the spec: the class [StandardNormalDistribution] of
    [statistics.h], with the two members above. *)
Definition StdNormal : StandardNormalDistribution :=
  {| pdf := normal_pdf; cdf := normal_cdf |}.

(** Auxiliary functions of the proofs about [StdNormal]. *)

(** [premium y = pdf y + y * cdf y]: a vanilla Bachelier price per unit of
    scaled volatility. *)
Definition premium (y : R) : R := normal_pdf y + y * normal_cdf y.

(** [mills y = cdf y / pdf y], written without a division. *)
Definition mills (y : R) : R := normal_cdf y * (sqrt (2 * PI) * exp (y * y / 2)).

(** The integrand [kern x t = exp (- x^2 (1 + t^2)) / (1 + t^2)] and its first
    two derivatives in [x]. *)
Definition kern (x t : R) : R := exp (- (x * x) * (1 + t * t)) * / (1 + t * t).
Definition dkern (x t : R) : R := -2 * x * exp (- (x * x) * (1 + t * t)).
Definition d2kern (x t : R) : R :=
  (-2 + 4 * ((x * x) * (1 + t * t))) * exp (- (x * x) * (1 + t * t)).

Lemma kern_cont (x : R) : continuity (kern x).
Proof. unfold kern; reg; intros; nra. Qed.

Lemma dkern_cont (x : R) : continuity (dkern x).
Proof. unfold dkern; reg. Qed.

(** [J x] is the integral of [kern x] over [[0,1]]; [dJ x] that of [dkern x]. *)
Definition J (x : R) : R := integral (kern x) (kern_cont x) 0 1.
Definition dJ (x : R) : R := integral (dkern x) (dkern_cont x) 0 1.

(** * Dispatch of the pricers *)

Lemma half_eq : 0.5 = / 2.
Proof. lra. Qed.

Section Dispatch.

Variable Z : StandardNormalDistribution.
Variables Spot Strike r Vol T : R.

Lemma Bachelier_at_the_money (type : string) :
  Spot = Strike ->
  Bachelier Z Spot Strike Vol T type = Return (at_the_money_value Spot Vol T).
Proof. intros H. unfold Bachelier. rewrite (Reqb_true _ _ H). reflexivity. Qed.

Lemma BlackScholes_at_the_money (type : string) :
  Spot = Strike ->
  BlackScholes Z Spot Strike r Vol T type = Return (at_the_money_value Spot Vol T).
Proof. intros H. unfold BlackScholes. rewrite (Reqb_true _ _ H). reflexivity. Qed.

Lemma Bachelier_off_money (v : variant) :
  Spot <> Strike ->
  Bachelier Z Spot Strike Vol T (token v) = Return (Bachelier_table Z Spot Strike Vol T v).
Proof.
  intros H. unfold Bachelier. rewrite (Reqb_false _ _ H).
  destruct v; reflexivity.
Qed.

Lemma d1_code :
  (ln (Spot / Strike) + (r + 0.5 * Vol * Vol) * T) / (Vol * sqrt T)
  = d1 Spot Strike r Vol T.
Proof. unfold d1. rewrite half_eq. f_equal. ring. Qed.

Lemma d2_code :
  (ln (Spot / Strike) + (r - 0.5 * Vol * Vol) * T) / (Vol * sqrt T)
  = d2 Spot Strike r Vol T.
Proof. unfold d2. rewrite half_eq. f_equal. ring. Qed.

Lemma discount_code : exp (- r * T) = exp (- (r * T)).
Proof. f_equal. ring. Qed.

Lemma BlackScholes_off_money (v : variant) :
  Spot <> Strike ->
  BlackScholes Z Spot Strike r Vol T (token v)
  = Return (BlackScholes_table Z Spot Strike r Vol T v).
Proof.
  intros H. unfold BlackScholes. rewrite (Reqb_false _ _ H).
  rewrite d1_code, d2_code, discount_code.
  destruct v; lazy [token String.eqb Ascii.eqb Bool.eqb BlackScholes_table];
    try reflexivity.
  f_equal. ring.
Qed.

End Dispatch.

Lemma unrecognized_eqb (type : string) (v : variant) :
  ~ recognized type -> (type =? token v)%string = false.
Proof.
  intros H. apply String.eqb_neq. intros ->. apply H.
  unfold recognized, recognized_types. destruct v; simpl; tauto.
Qed.

Ltac no_match H :=
  let E := fresh "E" in
  pose proof (fun v => unrecognized_eqb _ v H) as E;
  let go v := (let Ev := fresh "Ev" in
               pose proof (E v) as Ev; cbn [token] in Ev; rewrite Ev; clear Ev) in
  go VanillaCall; go VanillaPut; go CashCall; go CashPut; go AssetCall; go AssetPut.

Lemma Bachelier_unrecognized (Z : StandardNormalDistribution)
    (Spot Strike Vol T : R) (type : string) :
  ~ recognized type -> Spot <> Strike ->
  Bachelier Z Spot Strike Vol T type = Throw type_error.
Proof.
  intros H Hne. unfold Bachelier. rewrite (Reqb_false _ _ Hne).
  no_match H. reflexivity.
Qed.

Lemma BlackScholes_unrecognized (Z : StandardNormalDistribution)
    (Spot Strike r Vol T : R) (type : string) :
  ~ recognized type -> Spot <> Strike ->
  BlackScholes Z Spot Strike r Vol T type = Throw type_error.
Proof.
  intros H Hne. unfold BlackScholes. rewrite (Reqb_false _ _ Hne).
  no_match H. reflexivity.
Qed.

Lemma recognized_token (v : variant) : recognized (token v).
Proof. unfold recognized, recognized_types. destruct v; simpl; tauto. Qed.

Lemma recognized_inv (type : string) :
  recognized type -> exists v, type = token v.
Proof.
  unfold recognized, recognized_types. simpl.
  intros [H | [H | [H | [H | [H | [H | []]]]]]]; subst type;
    [exists VanillaCall | exists VanillaPut | exists CashCall
    | exists CashPut | exists AssetCall | exists AssetPut]; reflexivity.
Qed.

Lemma bogus_unrecognized : ~ recognized "bogus".
Proof.
  intros H. apply recognized_inv in H. destruct H as [v H].
  destruct v; discriminate H.
Qed.

Lemma aon_putt_unrecognized : ~ recognized "aon putt".
Proof.
  intros H. apply recognized_inv in H. destruct H as [v H].
  destruct v; discriminate H.
Qed.

Example Bachelier_con_put_at_the_money (Z : StandardNormalDistribution) :
  Bachelier Z 3 3 2 8 "con put" = Return (2 * 3 * sqrt (0.5 * 8 / PI)).
Proof. apply Bachelier_at_the_money. reflexivity. Qed.

Example BlackScholes_bogus_off_money (Z : StandardNormalDistribution) :
  BlackScholes Z 50 20 0.13 0.2 4 "bogus" = Throw type_error.
Proof. apply BlackScholes_unrecognized; [exact bogus_unrecognized | lra]. Qed.

Example Bachelier_con_call_off_money (Z : StandardNormalDistribution) :
  Bachelier Z 50 20 0.2 4 "con call"
  = Return (cdf Z (- ((20 - 50) / (50 * 0.2 * sqrt 4)))).
Proof. apply (Bachelier_off_money Z 50 20 0.2 4 CashCall). lra. Qed.

(** * Results that hold for every [StandardNormalDistribution] *)

(** C1. At the money ([Spot == Strike]) both pricers return
    [Volatility * Spot * sqrt (0.5 * Maturity / pi)], for every volatility
    and maturity, every [type] string, recognized or not, and, for
    Black-Scholes, every rate. *)
Theorem pricers_at_the_money (Z : StandardNormalDistribution)
    (Spot Strike Vol T : R) (type : string) :
  Spot = Strike ->
  Bachelier Z Spot Strike Vol T type = Return (Vol * Spot * sqrt (0.5 * T / PI)) /\
  forall r : R,
    BlackScholes Z Spot Strike r Vol T type
    = Return (Vol * Spot * sqrt (0.5 * T / PI)).
Proof.
  intros H. split.
  - apply Bachelier_at_the_money, H.
  - intros r. apply BlackScholes_at_the_money, H.
Qed.

Lemma pricers_at_the_money_witness :
  7 = 7 /\
  (Bachelier StdNormal 7 7 3 2 "bogus" = Return (3 * 7 * sqrt (0.5 * 2 / PI)) /\
   forall r : R,
     BlackScholes StdNormal 7 7 r 3 2 "bogus" = Return (3 * 7 * sqrt (0.5 * 2 / PI))).
Proof.
  split; [reflexivity | apply (pricers_at_the_money StdNormal 7 7 3 2 "bogus"); reflexivity].
Defined.

(** C2, as amended.  Off the money ([Spot <> Strike]) a [type] that is not
    one of the six tokens makes both pricers throw [invalid_argument] with
    the message that the option type is invalid; no value is returned. *)
Theorem invalid_type_rejected (Z : StandardNormalDistribution)
    (Spot Strike r Vol T : R) (type : string) :
  ~ recognized type -> Spot <> Strike ->
  rejects Z Spot Strike r Vol T type.
Proof.
  intros H Hne. split.
  - apply Bachelier_unrecognized; assumption.
  - apply BlackScholes_unrecognized; assumption.
Qed.

Lemma invalid_type_rejected_witness :
  ~ recognized "bogus" /\ 50 <> 20 /\ rejects StdNormal 50 20 0.13 0.2 4 "bogus".
Proof.
  assert (Hne : 50 <> 20) by lra.
  split; [exact bogus_unrecognized | split; [exact Hne |]].
  apply (invalid_type_rejected StdNormal 50 20 0.13 0.2 4 "bogus" bogus_unrecognized Hne).
Defined.

(** C2, as stated, fails at the money: with [Spot = Strike = 1] the
    unrecognized ["bogus"] is not rejected, both pricers return the
    at-the-money value. *)
Lemma invalid_type_accepted_at_the_money :
  ~ recognized "bogus" /\ ~ rejects StdNormal 1 1 0 1 1 "bogus".
Proof.
  split; [exact bogus_unrecognized |].
  intros [H _]. rewrite Bachelier_at_the_money in H by reflexivity.
  discriminate H.
Qed.

(** C3. Off the money, Black-Scholes returns
    [Spot * cdf d1 - Strike * exp (- Rate * T) * cdf d2] for ["van call"],
    [- Spot * cdf (- d1) + Strike * exp (- Rate * T) * cdf (- d2)] for
    ["van put"], [exp (- Rate * T) * cdf d2] for ["con call"] and
    [exp (- Rate * T) * cdf (- d2)] for ["con put"], at the offsets [d1] and
    [d2] of the specification. *)
Theorem BlackScholes_vanilla_and_cash (Z : StandardNormalDistribution)
    (Spot Strike Rate Vol T : R) :
  0 < Spot -> 0 < Strike -> 0 < Vol -> 0 < T -> Spot <> Strike ->
  let a := d1 Spot Strike Rate Vol T in
  let b := d2 Spot Strike Rate Vol T in
  BlackScholes Z Spot Strike Rate Vol T "van call"
  = Return (Spot * cdf Z a - Strike * exp (- (Rate * T)) * cdf Z b) /\
  BlackScholes Z Spot Strike Rate Vol T "van put"
  = Return (- (Spot * cdf Z (- a)) + Strike * exp (- (Rate * T)) * cdf Z (- b)) /\
  BlackScholes Z Spot Strike Rate Vol T "con call"
  = Return (exp (- (Rate * T)) * cdf Z b) /\
  BlackScholes Z Spot Strike Rate Vol T "con put"
  = Return (exp (- (Rate * T)) * cdf Z (- b)).
Proof.
  intros _ _ _ _ Hne a b.
  pose proof (fun v => BlackScholes_off_money Z Spot Strike Rate Vol T v Hne) as E.
  repeat split.
  - exact (E VanillaCall).
  - exact (E VanillaPut).
  - exact (E CashCall).
  - exact (E CashPut).
Qed.

Lemma BlackScholes_vanilla_and_cash_witness :
  BlackScholes StdNormal 50 20 0.13 0.2 4 "van call"
  = Return (50 * normal_cdf (d1 50 20 0.13 0.2 4)
            - 20 * exp (- (0.13 * 4)) * normal_cdf (d2 50 20 0.13 0.2 4)).
Proof.
  apply (BlackScholes_vanilla_and_cash StdNormal 50 20 0.13 0.2 4); lra.
Defined.

(** C4. Off the money, Black-Scholes returns [Spot * pdf d1] for
    ["aon call"] and [Spot * pdf (- d1)] for ["aon put"]: the density, not
    the distribution function, of the offset. *)
Theorem BlackScholes_asset_or_nothing (Z : StandardNormalDistribution)
    (Spot Strike Rate Vol T : R) :
  0 < Spot -> 0 < Strike -> 0 < Vol -> 0 < T -> Spot <> Strike ->
  BlackScholes Z Spot Strike Rate Vol T "aon call"
  = Return (Spot * pdf Z (d1 Spot Strike Rate Vol T)) /\
  BlackScholes Z Spot Strike Rate Vol T "aon put"
  = Return (Spot * pdf Z (- d1 Spot Strike Rate Vol T)).
Proof.
  intros _ _ _ _ Hne.
  pose proof (fun v => BlackScholes_off_money Z Spot Strike Rate Vol T v Hne) as E.
  split.
  - exact (E AssetCall).
  - exact (E AssetPut).
Qed.

Lemma BlackScholes_asset_or_nothing_witness :
  BlackScholes StdNormal 50 20 0.13 0.2 4 "aon call"
  = Return (50 * normal_pdf (d1 50 20 0.13 0.2 4)) /\
  BlackScholes StdNormal 50 20 0.13 0.2 4 "aon put"
  = Return (50 * normal_pdf (- d1 50 20 0.13 0.2 4)).
Proof.
  apply (BlackScholes_asset_or_nothing StdNormal 50 20 0.13 0.2 4); lra.
Defined.

(** C5. Off the money, Bachelier returns for each of the six tokens the
    formula of the specification's table at the offset
    [xs = (Strike - Spot) / (Spot * Volatility * sqrt Maturity)]; for
    ["aon put"] that is
    [Spot * cdf xs - Spot * Volatility * sqrt Maturity * pdf xs]. *)
Theorem Bachelier_follows_table (Z : StandardNormalDistribution)
    (Spot Strike Vol T : R) :
  0 < Spot -> 0 < Vol -> 0 < T -> Spot <> Strike ->
  (forall v : variant,
     Bachelier Z Spot Strike Vol T (token v)
     = Return (Bachelier_table Z Spot Strike Vol T v)) /\
  Bachelier Z Spot Strike Vol T "aon put"
  = Return (Spot * cdf Z (xs Spot Strike Vol T)
            - Spot * Vol * sqrt T * pdf Z (xs Spot Strike Vol T)).
Proof.
  intros _ _ _ Hne. split.
  - intros v. apply Bachelier_off_money, Hne.
  - exact (Bachelier_off_money Z Spot Strike Vol T AssetPut Hne).
Qed.

Lemma Bachelier_follows_table_witness :
  Bachelier StdNormal 50 20 0.2 4 "van call"
  = Return ((50 - 20) * normal_cdf (- xs 50 20 0.2 4)
            + 50 * 0.2 * sqrt 4 * normal_pdf (- xs 50 20 0.2 4)).
Proof.
  assert (Hne : 50 <> 20) by lra.
  assert (H1 : 0 < 50) by lra. assert (H2 : 0 < 0.2) by lra. assert (H3 : 0 < 4) by lra.
  exact (proj1 (Bachelier_follows_table StdNormal 50 20 0.2 4 H1 H2 H3 Hne) VanillaCall).
Defined.

(** C9. The demonstration program does not reach [return 0]: its twelfth
    pricer call passes ["aon putt"], which no variant matches, so
    [invalid_argument] leaves [main] uncaught after eleven prices and the
    last label have been written. *)
Theorem main_throws (Z : StandardNormalDistribution) :
  run_main Z = (written Z, Throw type_error).
Proof.
  assert (Hne : 50 <> 20) by lra.
  pose proof (fun v => Bachelier_off_money Z 50 20 0.2 4 v Hne) as B.
  pose proof (fun v => BlackScholes_off_money Z 50 20 0.13 0.2 4 v Hne) as S.
  pose proof (BlackScholes_unrecognized Z 50 20 0.13 0.2 4 "aon putt"
                aon_putt_unrecognized Hne) as X.
  pose proof (B VanillaCall) as B1. pose proof (B VanillaPut) as B2.
  pose proof (B CashCall) as B3. pose proof (B CashPut) as B4.
  pose proof (B AssetCall) as B5. pose proof (B AssetPut) as B6.
  pose proof (S VanillaCall) as S1. pose proof (S VanillaPut) as S2.
  pose proof (S CashCall) as S3. pose proof (S CashPut) as S4.
  pose proof (S AssetCall) as S5.
  cbn [token] in B1, B2, B3, B4, B5, B6, S1, S2, S3, S4, S5.
  unfold run_main, main. cbv zeta.
  rewrite B1, B2, B3, B4, B5, B6, S1, S2, S3, S4, S5, X.
  reflexivity.
Qed.

(** * Integrals of continuous functions *)

Section IntegralFacts.

Variable f : R -> R.
Hypothesis f_cont : continuity f.

Local Abbreviation int := (integral f f_cont).

Lemma integral_any (a b : R) (pr : Riemann_integrable f a b) :
  RiemannInt pr = int a b.
Proof. apply RiemannInt_P5. Qed.

Lemma integral_chasles (a b c : R) : int a b + int b c = int a c.
Proof. apply RiemannInt_P26. Qed.

Lemma integral_point (a : R) : int a a = 0.
Proof. apply RiemannInt_P9. Qed.

(** The integral is differentiable in its upper end, with the integrand as
    derivative. *)
Lemma integral_derivable (a x : R) :
  derivable_pt_lim (fun y => int a y) x (f x).
Proof.
  assert (h : x - 1 <= x + 1) by lra.
  assert (C0 : forall y, x - 1 <= y <= x + 1 -> continuity_pt f y)
    by (intros y _; apply f_cont).
  assert (HP : derivable_pt_lim (primitive h (FTC_P1 h C0)) x (f x))
    by (apply RiemannInt_P28; lra).
  assert (Hloc : forall y, x - 1 <= y <= x + 1 ->
            int a y = int a (x - 1) + primitive h (FTC_P1 h C0) y).
  { intros y [Hy1 Hy2]. unfold primitive.
    destruct (Rle_dec (x - 1) y) as [r | r]; [| contradiction].
    destruct (Rle_dec y (x + 1)) as [r0 | r0]; [| contradiction].
    rewrite integral_any. symmetry; apply integral_chasles. }
  intros eps Heps. destruct (HP eps Heps) as [delta Hd].
  assert (Hm : 0 < Rmin delta 1) by (apply Rmin_pos; [apply cond_pos | lra]).
  exists (mkposreal _ Hm). intros k Hk0 Hk. simpl in Hk.
  assert (Hk1 : Rabs k < 1) by (eapply Rlt_le_trans; [exact Hk | apply Rmin_r]).
  assert (Hk2 : Rabs k < delta) by (eapply Rlt_le_trans; [exact Hk | apply Rmin_l]).
  apply Rabs_def2 in Hk1.
  rewrite (Hloc (x + k)) by lra. rewrite (Hloc x) by lra.
  replace (int a (x - 1) + primitive h (FTC_P1 h C0) (x + k) -
           (int a (x - 1) + primitive h (FTC_P1 h C0) x))
    with (primitive h (FTC_P1 h C0) (x + k) - primitive h (FTC_P1 h C0) x) by ring.
  apply Hd; assumption.
Qed.

End IntegralFacts.

Lemma zero_derivative_constant (F : R -> R) :
  (forall x, derivable_pt_lim F x 0) -> forall x y, F x = F y.
Proof.
  intros H.
  set (pr := fun x => exist (fun l => derivable_pt_abs F x l) 0 (H x) : derivable_pt F x).
  apply (null_derivative_1 F pr). intros x; reflexivity.
Qed.

Lemma nonneg_derivative_increasing (F F' : R -> R) :
  (forall x, derivable_pt_lim F x (F' x)) -> (forall x, 0 <= F' x) ->
  forall x y, x <= y -> F x <= F y.
Proof.
  intros H Hpos.
  set (pr := fun x => exist (fun l => derivable_pt_abs F x l) (F' x) (H x) : derivable_pt F x).
  apply (nonneg_derivative_1 F pr). intros x; simpl; apply Hpos.
Qed.

(** Fundamental theorem: an antiderivative computes the integral. *)
Lemma integral_antiderivative (f F : R -> R) (Hf : continuity f) :
  (forall x, derivable_pt_lim F x (f x)) ->
  forall a b, integral f Hf a b = F b - F a.
Proof.
  intros HF a b.
  assert (Hc : forall x y, integral f Hf a x - F x = integral f Hf a y - F y).
  { apply (zero_derivative_constant (fun x => integral f Hf a x - F x)).
    intros x. replace 0 with (f x - f x) by ring.
    apply derivable_pt_lim_minus; [apply integral_derivable | apply HF]. }
  specialize (Hc b a). rewrite integral_point in Hc. lra.
Qed.

(** Derivatives of compound expressions, one rule per head symbol. *)

Lemma dlim_ext (f : R -> R) (x l l' : R) :
  derivable_pt_lim f x l -> l = l' -> derivable_pt_lim f x l'.
Proof. intros H <-; exact H. Qed.

Ltac dlim :=
  lazymatch goal with
  | |- derivable_pt_lim (fun _ => ?c) _ _ => apply derivable_pt_lim_const
  | |- derivable_pt_lim (fun x => x) _ _ => apply derivable_pt_lim_id
  | |- derivable_pt_lim (fun x => @?a x + @?b x) _ _ =>
      eapply (derivable_pt_lim_plus a b); dlim
  | |- derivable_pt_lim (fun x => @?a x - @?b x) _ _ =>
      eapply (derivable_pt_lim_minus a b); dlim
  | |- derivable_pt_lim (fun x => @?a x * @?b x) _ _ =>
      eapply (derivable_pt_lim_mult a b); dlim
  | |- derivable_pt_lim (fun x => - @?a x) _ _ =>
      eapply (derivable_pt_lim_opp a); dlim
  | |- derivable_pt_lim (fun x => exp (@?a x)) _ _ =>
      eapply (derivable_pt_lim_comp a exp); [dlim | apply derivable_pt_lim_exp]
  | |- derivable_pt_lim (fun x => ?F (@?a x)) _ _ =>
      eapply (derivable_pt_lim_comp a F); [dlim | eauto]
  | |- _ => eauto
  end.

Tactic Notation "derive_by" tactic(tac) := eapply dlim_ext; [dlim | cbv beta; tac].

(** Linear combinations and bounds of integrals of continuous functions. *)

Lemma integral_lin3 (f1 f2 f3 e : R -> R) Hf1 Hf2 Hf3 He (c1 c2 c3 a b : R) :
  (forall t, e t = c1 * f1 t + c2 * f2 t + c3 * f3 t) ->
  integral e He a b =
  c1 * integral f1 Hf1 a b + c2 * integral f2 Hf2 a b + c3 * integral f3 Hf3 a b.
Proof.
  intros Heq.
  rewrite (integral_antiderivative e
             (fun y => c1 * integral f1 Hf1 a y + c2 * integral f2 Hf2 a y
                       + c3 * integral f3 Hf3 a y)).
  - rewrite !integral_point. ring.
  - intros x. rewrite Heq.
    pose proof (integral_derivable f1 Hf1 a) as D1.
    pose proof (integral_derivable f2 Hf2 a) as D2.
    pose proof (integral_derivable f3 Hf3 a) as D3.
    derive_by ring.
Qed.

Lemma integral_abs_bound (f : R -> R) Hf (a b M : R) :
  a <= b -> (forall t, a < t < b -> Rabs (f t) <= M) ->
  Rabs (integral f Hf a b) <= M * (b - a).
Proof.
  intros Hab HM. unfold integral.
  destruct (@RiemannInt_const_bound f a b (- M) M (cont_integrable f Hf a b) Hab) as [H1 H2].
  - intros t Ht. specialize (HM t Ht). unfold Rabs in HM.
    destruct (Rcase_abs (f t)); lra.
  - unfold Rabs. destruct (Rcase_abs _); lra.
Qed.

(** A second-order Taylor bound from two applications of the mean value
    theorem. *)
Lemma taylor2 (g g1 g2 : R -> R) (M x h : R) :
  (forall y, derivable_pt_lim g y (g1 y)) ->
  (forall y, derivable_pt_lim g1 y (g2 y)) ->
  (forall y, Rabs (g2 y) <= M) ->
  Rabs (g (x + h) - g x - h * g1 x) <= M * (h * h).
Proof.
  intros Hg Hg1 HM.
  assert (M0 : 0 <= M) by (eapply Rle_trans; [apply Rabs_pos | apply (HM 0)]).
  destruct (Rtotal_order h 0) as [Hneg | [-> | Hpos]].
  - destruct (MVT_cor2 g g1 (x + h) x) as [xi [E1 I1]]; [lra | intros; apply Hg |].
    destruct (MVT_cor2 g1 g2 xi x) as [eta [E2 I2]]; [lra | intros; apply Hg1 |].
    assert (E : g (x + h) - g x - h * g1 x = g2 eta * ((x - xi) * - h)).
    { transitivity (- (g x - g (x + h)) - h * (g1 x - g1 xi) - h * g1 xi); [ring |].
      rewrite E1, E2. ring. }
    rewrite E.
    assert (P1 : 0 <= (x - xi) * - h) by (apply Rmult_le_pos; lra).
    assert (P2 : (x - xi) * - h <= h * h).
    { replace (h * h) with (- h * - h) by ring. apply Rmult_le_compat_r; lra. }
    rewrite Rabs_mult, (Rabs_pos_eq _ P1).
    apply Rle_trans with (M * ((x - xi) * - h));
      [apply Rmult_le_compat_r; auto | apply Rmult_le_compat_l; auto].
  - replace (g (x + 0) - g x - 0 * g1 x) with 0 by (rewrite Rplus_0_r; ring).
    rewrite Rabs_R0. lra.
  - destruct (MVT_cor2 g g1 x (x + h)) as [xi [E1 I1]]; [lra | intros; apply Hg |].
    destruct (MVT_cor2 g1 g2 x xi) as [eta [E2 I2]]; [lra | intros; apply Hg1 |].
    assert (E : g (x + h) - g x - h * g1 x = g2 eta * ((xi - x) * h)).
    { transitivity ((g (x + h) - g x) + h * (g1 xi - g1 x) - h * g1 xi); [ring |].
      rewrite E1, E2. ring. }
    rewrite E.
    assert (P1 : 0 <= (xi - x) * h) by (apply Rmult_le_pos; lra).
    assert (P2 : (xi - x) * h <= h * h) by (apply Rmult_le_compat_r; lra).
    rewrite Rabs_mult, (Rabs_pos_eq _ P1).
    apply Rle_trans with (M * ((xi - x) * h));
      [apply Rmult_le_compat_r; auto | apply Rmult_le_compat_l; auto].
Qed.

(** * The Gaussian integral

    [gauss_int x ^ 2 + J x] has derivative zero, and equals [pi / 4] at [0];
    since [0 <= J x <= exp (- x^2)] this bounds [erf] by [1] and gives its
    tail. *)

Lemma gauss_int_derive (x : R) : derivable_pt_lim gauss_int x (gauss x).
Proof. apply integral_derivable. Qed.

Lemma kern_dx (t x : R) : derivable_pt_lim (fun y => kern y t) x (dkern x t).
Proof. unfold kern, dkern. derive_by (field; nra). Qed.

Lemma dkern_dx (t x : R) : derivable_pt_lim (fun y => dkern y t) x (d2kern x t).
Proof. unfold dkern, d2kern. derive_by ring. Qed.

Lemma exp_neg_le_1 (u : R) : 0 <= u -> exp (- u) <= 1.
Proof.
  intros Hu. rewrite <- exp_0. destruct Hu as [Hu | <-].
  - left. apply exp_increasing. lra.
  - rewrite Ropp_0. lra.
Qed.

Lemma mul_exp_neg_le_1 (u : R) : 0 <= u -> u * exp (- u) <= 1.
Proof.
  intros Hu. rewrite exp_Ropp.
  assert (H1 : 1 + u <= exp u) by apply exp_ineq1_le.
  assert (H2 : 0 < exp u) by apply exp_pos.
  apply Rmult_le_reg_r with (exp u); [exact H2 |].
  rewrite Rmult_assoc, Rinv_l by lra. lra.
Qed.

Lemma d2kern_bound (x t : R) : Rabs (d2kern x t) <= 6.
Proof.
  unfold d2kern.
  assert (Hu : 0 <= x * x * (1 + t * t)) by (apply Rmult_le_pos; nra).
  set (u := x * x * (1 + t * t)) in *.
  replace (- (x * x) * (1 + t * t)) with (- u) by (unfold u; ring).
  pose proof (exp_neg_le_1 u Hu) as H1.
  pose proof (mul_exp_neg_le_1 u Hu) as H2.
  pose proof (exp_pos (- u)) as H3.
  replace ((-2 + 4 * u) * exp (- u)) with (4 * (u * exp (- u)) - 2 * exp (- u)) by ring.
  assert (H4 : 0 <= u * exp (- u)) by (apply Rmult_le_pos; lra).
  unfold Rabs. destruct (Rcase_abs _); lra.
Qed.

Lemma kern_taylor (x h t : R) :
  Rabs (kern (x + h) t - kern x t - h * dkern x t) <= 6 * (h * h).
Proof.
  apply (taylor2 (fun y => kern y t) (fun y => dkern y t) (fun y => d2kern y t)).
  - intros y; apply kern_dx.
  - intros y; apply dkern_dx.
  - intros y; apply d2kern_bound.
Qed.

Lemma J_derive (x : R) : derivable_pt_lim J x (dJ x).
Proof.
  intros eps Heps.
  assert (Hd : 0 < eps / 7) by lra.
  exists (mkposreal _ Hd). intros h Hh0 Hh. simpl in Hh.
  set (D := fun t => / h * kern (x + h) t + - / h * kern x t + -1 * dkern x t).
  assert (HD : continuity D) by (unfold D, kern, dkern; reg; intros; nra).
  assert (E : (J (x + h) - J x) / h - dJ x = integral D HD 0 1).
  { unfold J, dJ.
    rewrite (integral_lin3 (kern (x + h)) (kern x) (dkern x) D
               (kern_cont (x + h)) (kern_cont x) (dkern_cont x) HD
               (/ h) (- / h) (-1) 0 1) by (intros; reflexivity).
    field. exact Hh0. }
  rewrite E.
  apply Rle_lt_trans with (6 * Rabs h * (1 - 0)).
  - apply integral_abs_bound; [lra |].
    intros t _. unfold D.
    replace (/ h * kern (x + h) t + - / h * kern x t + -1 * dkern x t)
      with ((kern (x + h) t - kern x t - h * dkern x t) * / h) by (field; exact Hh0).
    rewrite Rabs_mult, Rabs_inv.
    pose proof (kern_taylor x h t) as HT.
    assert (Hah : 0 < Rabs h) by (apply Rabs_pos_lt; exact Hh0).
    apply Rmult_le_reg_r with (Rabs h); [exact Hah |].
    rewrite Rmult_assoc, Rinv_l by lra.
    replace (6 * Rabs h * Rabs h) with (6 * (Rabs h * Rabs h)) by ring.
    rewrite <- Rabs_mult, (Rabs_pos_eq (h * h)) by nra. lra.
  - lra.
Qed.

Lemma gauss_split (x t : R) :
  exp (- (x * x) * (1 + t * t)) = gauss x * gauss (x * t).
Proof. unfold gauss. rewrite <- exp_plus. f_equal. ring. Qed.

Lemma dJ_value (x : R) : dJ x = -2 * gauss x * gauss_int x.
Proof.
  unfold dJ.
  rewrite (integral_antiderivative (dkern x)
             (fun t => -2 * gauss x * gauss_int (x * t))).
  - rewrite Rmult_1_r, Rmult_0_r. unfold gauss_int at 2. rewrite integral_point. ring.
  - intros t. unfold dkern. rewrite gauss_split.
    pose proof gauss_int_derive as DG.
    derive_by ring.
Qed.

Lemma J_0 : J 0 = PI / 4.
Proof.
  unfold J.
  rewrite (integral_antiderivative (kern 0) atan).
  - rewrite atan_1, atan_0. ring.
  - intros t. eapply dlim_ext; [apply derivable_pt_lim_atan |].
    unfold kern. replace (- (0 * 0) * (1 + t * t)) with 0 by ring.
    rewrite exp_0. unfold Rsqr. field. nra.
Qed.

Theorem gauss_int_sqr (x : R) : gauss_int x * gauss_int x + J x = PI / 4.
Proof.
  rewrite <- J_0.
  replace (J 0) with (gauss_int 0 * gauss_int 0 + J 0)
    by (unfold gauss_int; rewrite integral_point; ring).
  apply (zero_derivative_constant (fun y => gauss_int y * gauss_int y + J y)).
  intros y. pose proof gauss_int_derive as DG. pose proof J_derive as DJ.
  derive_by (rewrite dJ_value; ring).
Qed.

Lemma gauss_pos (t : R) : 0 < gauss t.
Proof. apply exp_pos. Qed.

Lemma gauss_le_1 (t : R) : gauss t <= 1.
Proof. unfold gauss. apply exp_neg_le_1. nra. Qed.

Lemma kern_bounds (x t : R) : 0 <= kern x t <= gauss x.
Proof.
  unfold kern. rewrite gauss_split.
  pose proof (gauss_pos x) as G1. pose proof (gauss_pos (x * t)) as G2.
  pose proof (gauss_le_1 (x * t)) as G3.
  assert (I1 : 0 < / (1 + t * t)) by (apply Rinv_0_lt_compat; nra).
  assert (I2 : / (1 + t * t) <= 1).
  { pose proof (Rle_0_sqr t) as T2. unfold Rsqr in T2.
    apply Rmult_le_reg_r with (1 + t * t); [lra |]. rewrite Rinv_l; lra. }
  split.
  - apply Rmult_le_pos; [apply Rmult_le_pos |]; lra.
  - assert (P : gauss (x * t) * / (1 + t * t) <= 1 * 1)
      by (apply Rmult_le_compat; lra).
    rewrite Rmult_assoc.
    apply Rle_trans with (gauss x * (1 * 1)); [apply Rmult_le_compat_l; lra | lra].
Qed.

Lemma J_bounds (x : R) : 0 <= J x <= gauss x.
Proof.
  unfold J, integral.
  destruct (@RiemannInt_const_bound (kern x) 0 1 0 (gauss x)
              (cont_integrable (kern x) (kern_cont x) 0 1)) as [H1 H2].
  - lra.
  - intros t _. apply kern_bounds.
  - lra.
Qed.

Lemma gauss_int_odd (x : R) : gauss_int (- x) = - gauss_int x.
Proof.
  assert (H : gauss_int x + gauss_int (- x) = gauss_int 0 + gauss_int (- 0)).
  { apply (zero_derivative_constant (fun y => gauss_int y + gauss_int (- y))).
    intros y. pose proof gauss_int_derive as DG.
    derive_by (unfold gauss; replace (- y * - y) with (y * y) by ring; ring). }
  rewrite Ropp_0 in H. unfold gauss_int at 3 4 in H. rewrite integral_point in H. lra.
Qed.

Lemma gauss_int_increasing (x y : R) : x <= y -> gauss_int x <= gauss_int y.
Proof.
  apply (nonneg_derivative_increasing gauss_int gauss).
  - apply gauss_int_derive.
  - intros t. left. apply gauss_pos.
Qed.

Lemma gauss_int_nonneg (x : R) : 0 <= x -> 0 <= gauss_int x.
Proof.
  intros Hx. replace 0 with (gauss_int 0) at 1
    by (unfold gauss_int; apply integral_point).
  apply gauss_int_increasing, Hx.
Qed.

(** * The error function *)

Lemma sqrt_PI_pos : 0 < sqrt PI.
Proof. apply sqrt_lt_R0, PI_RGT_0. Qed.

Lemma sqrt_PI_sqr : sqrt PI * sqrt PI = PI.
Proof. apply sqrt_sqrt. left; apply PI_RGT_0. Qed.

Lemma sqrt_2_pos : 0 < sqrt 2.
Proof. apply sqrt_lt_R0; lra. Qed.

Lemma sqrt_2_sqr : sqrt 2 * sqrt 2 = 2.
Proof. apply sqrt_sqrt; lra. Qed.

Lemma sqrt_2PI : sqrt (2 * PI) = sqrt 2 * sqrt PI.
Proof. apply sqrt_mult_alt; lra. Qed.

Lemma sqrt_2PI_pos : 0 < sqrt (2 * PI).
Proof. apply sqrt_lt_R0. pose proof PI_RGT_0. lra. Qed.

Lemma erf_odd (x : R) : erf (- x) = - erf x.
Proof. unfold erf. rewrite gauss_int_odd. ring. Qed.

Lemma erf_derive (x : R) : derivable_pt_lim erf x (2 / sqrt PI * gauss x).
Proof. unfold erf. pose proof gauss_int_derive as DG. derive_by ring. Qed.

Lemma erf_sqr (x : R) : erf x * erf x = 1 - 4 / PI * J x.
Proof.
  pose proof sqrt_PI_pos as P. pose proof PI_RGT_0 as Q.
  pose proof (gauss_int_sqr x) as G. unfold erf.
  replace (2 / sqrt PI * gauss_int x * (2 / sqrt PI * gauss_int x))
    with (4 / (sqrt PI * sqrt PI) * (gauss_int x * gauss_int x)) by (field; lra).
  rewrite sqrt_PI_sqr.
  replace (gauss_int x * gauss_int x) with (PI / 4 - J x) by lra.
  field; lra.
Qed.

Lemma erf_bounds (x : R) : -1 <= erf x <= 1.
Proof.
  pose proof (erf_sqr x) as E. pose proof (J_bounds x) as [J0 _].
  pose proof PI_RGT_0 as Q.
  assert (H : 0 <= 4 / PI * J x).
  { apply Rmult_le_pos; [| exact J0]. apply Rlt_le, Rdiv_lt_0_compat; lra. }
  nra.
Qed.

Lemma erf_nonneg (x : R) : 0 <= x -> 0 <= erf x.
Proof.
  intros Hx. unfold erf. apply Rmult_le_pos.
  - apply Rlt_le, Rdiv_lt_0_compat; [lra | apply sqrt_PI_pos].
  - apply gauss_int_nonneg, Hx.
Qed.

Lemma erf_tail (x : R) : 0 <= x -> 1 - erf x <= 2 * gauss x.
Proof.
  intros Hx. pose proof (erf_sqr x) as E. pose proof (J_bounds x) as [J0 J1].
  pose proof (erf_nonneg x Hx) as E0. pose proof (erf_bounds x) as [_ E1].
  pose proof PI2_1 as Q.
  assert (H : 4 / PI * J x <= 2 * gauss x).
  { apply Rle_trans with (2 * J x); [| lra].
    apply Rmult_le_compat_r; [exact J0 |].
    apply Rmult_le_reg_r with PI; [lra |].
    unfold Rdiv. rewrite Rmult_assoc, Rinv_l; lra. }
  nra.
Qed.

(** * Properties of [normal_pdf] and [normal_cdf] *)

Lemma normal_pdf_pos (x : R) : 0 < normal_pdf x.
Proof.
  unfold normal_pdf. apply Rmult_lt_0_compat; [| apply exp_pos].
  apply Rdiv_lt_0_compat; [lra | apply sqrt_2PI_pos].
Qed.

Lemma normal_pdf_even (x : R) : normal_pdf (- x) = normal_pdf x.
Proof. unfold normal_pdf. replace (- x * - x) with (x * x) by ring. reflexivity. Qed.

Lemma normal_cdf_sym (x : R) : normal_cdf x + normal_cdf (- x) = 1.
Proof.
  unfold normal_cdf.
  replace (- x / sqrt 2) with (- (x / sqrt 2)) by (field; pose proof sqrt_2_pos; lra).
  rewrite erf_odd. lra.
Qed.

Lemma normal_cdf_0 : normal_cdf 0 = 0.5.
Proof.
  unfold normal_cdf, erf, gauss_int, Rdiv.
  rewrite Rmult_0_l, integral_point. lra.
Qed.

Lemma normal_pdf_0 : normal_pdf 0 = 1 / sqrt (2 * PI).
Proof.
  unfold normal_pdf. replace (- (0 * 0) / 2) with 0 by field.
  rewrite exp_0. ring.
Qed.

Lemma normal_cdf_bounds (x : R) : 0 <= normal_cdf x <= 1.
Proof. unfold normal_cdf. pose proof (erf_bounds (x / sqrt 2)). lra. Qed.

Lemma gauss_scaled (x : R) : gauss (x / sqrt 2) = exp (- (x * x) / 2).
Proof.
  unfold gauss. f_equal. pose proof sqrt_2_pos as P. pose proof sqrt_2_sqr as S.
  replace (x / sqrt 2 * (x / sqrt 2)) with (x * x / (sqrt 2 * sqrt 2)) by (field; lra).
  rewrite S. field.
Qed.

Lemma normal_cdf_derive (x : R) : derivable_pt_lim normal_cdf x (normal_pdf x).
Proof.
  unfold normal_cdf, normal_pdf. unfold Rdiv at 1.
  pose proof erf_derive as DE.
  eapply dlim_ext; [dlim |]. cbv beta.
  change (x * / sqrt 2) with (x / sqrt 2). rewrite gauss_scaled, sqrt_2PI, half_eq.
  pose proof sqrt_2_pos. pose proof sqrt_PI_pos. field. lra.
Qed.

Lemma normal_pdf_derive (x : R) :
  derivable_pt_lim normal_pdf x (- x * normal_pdf x).
Proof.
  unfold normal_pdf. unfold Rdiv at 2.
  eapply dlim_ext; [dlim |]. cbv beta.
  change (- (x * x) * / 2) with (- (x * x) / 2).
  pose proof sqrt_2PI_pos. field. lra.
Qed.

Lemma normal_cdf_tail (z : R) : z <= 0 -> normal_cdf z <= exp (- (z * z) / 2).
Proof.
  intros Hz. pose proof sqrt_2_pos as P.
  assert (Hw : 0 <= - z / sqrt 2).
  { apply Rmult_le_pos; [lra |]. apply Rlt_le, Rinv_0_lt_compat, P. }
  pose proof (erf_tail _ Hw) as T. rewrite gauss_scaled in T.
  replace (- z * - z) with (z * z) in T by ring.
  unfold normal_cdf.
  replace (z / sqrt 2) with (- (- z / sqrt 2)) by (field; lra).
  rewrite erf_odd. lra.
Qed.

(** [premium] has derivative [cdf], so it increases; it tends to [0] at
    minus infinity, so it is nowhere negative. *)
Lemma premium_derive (y : R) : derivable_pt_lim premium y (normal_cdf y).
Proof.
  unfold premium.
  pose proof normal_pdf_derive as DP. pose proof normal_cdf_derive as DC.
  derive_by ring.
Qed.

Lemma premium_increasing (x y : R) : x <= y -> premium x <= premium y.
Proof.
  apply (nonneg_derivative_increasing premium normal_cdf).
  - apply premium_derive.
  - intros t. apply normal_cdf_bounds.
Qed.

Lemma premium_nonneg (y : R) : 0 <= premium y.
Proof.
  destruct (Rle_or_lt 0 (premium y)) as [H | H]; [exact H | exfalso].
  set (e := - premium y). assert (He : 0 < e) by (unfold e; lra).
  set (w := Rmax (- y) (2 / e + 1)).
  assert (W1 : - y <= w) by apply Rmax_l.
  assert (W2 : 2 / e + 1 <= w) by apply Rmax_r.
  assert (W3 : 0 < 2 / e) by (apply Rdiv_lt_0_compat; lra).
  assert (W4 : 2 < e * w).
  { apply Rlt_le_trans with (e * (2 / e + 1)).
    - replace (e * (2 / e + 1)) with (2 + e) by (field; lra). lra.
    - apply Rmult_le_compat_l; lra. }
  assert (M : premium (- w) <= premium y) by (apply premium_increasing; lra).
  assert (T : normal_cdf (- w) <= exp (- (w * w) / 2)).
  { pose proof (normal_cdf_tail (- w)) as T.
    replace (- w * - w) with (w * w) in T by ring. apply T. lra. }
  assert (U : w * w / 2 * exp (- (w * w / 2)) <= 1) by (apply mul_exp_neg_le_1; nra).
  replace (- (w * w / 2)) with (- (w * w) / 2) in U by field.
  pose proof (normal_pdf_pos (- w)) as P.
  pose proof (normal_cdf_bounds (- w)) as [C0 _].
  assert (V : w * normal_cdf (- w) * w <= 2).
  { apply Rle_trans with (w * w * exp (- (w * w) / 2)); [| lra].
    replace (w * normal_cdf (- w) * w) with (w * w * normal_cdf (- w)) by ring.
    apply Rmult_le_compat_l; [nra | exact T]. }
  assert (X : w * normal_cdf (- w) < e).
  { apply Rmult_lt_reg_r with w; lra. }
  unfold premium in M at 1. unfold e in X. lra.
Qed.

Lemma mills_spec (y : R) : mills y = normal_cdf y / normal_pdf y.
Proof.
  unfold mills, normal_pdf. pose proof sqrt_2PI_pos as P.
  replace (- (y * y) / 2) with (- (y * y / 2)) by field.
  rewrite exp_Ropp. pose proof (exp_pos (y * y / 2)). field. lra.
Qed.

Lemma mills_derive (y : R) :
  derivable_pt_lim mills y (premium y * (sqrt (2 * PI) * exp (y * y / 2))).
Proof.
  unfold mills. pose proof normal_cdf_derive as DC. unfold Rdiv.
  eapply dlim_ext; [dlim |]. cbv beta. unfold premium, normal_pdf.
  replace (- (y * y) / 2) with (- (y * y * / 2)) by field.
  rewrite exp_Ropp. pose proof sqrt_2PI_pos as P.
  pose proof (exp_pos (y * y * / 2)). field. lra.
Qed.

Lemma mills_increasing (x y : R) : x <= y -> mills x <= mills y.
Proof.
  apply (nonneg_derivative_increasing mills
           (fun y => premium y * (sqrt (2 * PI) * exp (y * y / 2)))).
  - apply mills_derive.
  - intros t. apply Rmult_le_pos; [apply premium_nonneg |].
    apply Rmult_le_pos; [apply Rlt_le, sqrt_2PI_pos | apply Rlt_le, exp_pos].
Qed.

(** * Parities *)

Section Parities.

Variable Z : StandardNormalDistribution.
Hypothesis cdf_reflect : forall x : R, cdf Z x + cdf Z (- x) = 1.

Lemma BlackScholes_vanilla_difference (S K r sigma T : R) :
  BlackScholes_table Z S K r sigma T VanillaCall
  - BlackScholes_table Z S K r sigma T VanillaPut
  = S - K * exp (- (r * T)).
Proof.
  cbn [BlackScholes_table]. cbv zeta.
  pose proof (cdf_reflect (d1 S K r sigma T)) as Ha.
  pose proof (cdf_reflect (d2 S K r sigma T)) as Hb.
  set (a := d1 S K r sigma T) in *. set (b := d2 S K r sigma T) in *.
  replace (cdf Z a) with (1 - cdf Z (- a)) by lra.
  replace (cdf Z b) with (1 - cdf Z (- b)) by lra.
  ring.
Qed.

Lemma BlackScholes_cash_sum (S K r sigma T : R) :
  BlackScholes_table Z S K r sigma T CashCall
  + BlackScholes_table Z S K r sigma T CashPut
  = exp (- (r * T)).
Proof.
  cbn [BlackScholes_table]. cbv zeta.
  pose proof (cdf_reflect (d2 S K r sigma T)) as Hb.
  set (b := d2 S K r sigma T) in *.
  replace (cdf Z b) with (1 - cdf Z (- b)) by lra.
  ring.
Qed.

Lemma cash_parity_off_money (S K r sigma T : R) :
  S <> K -> cash_parity Z S K r sigma T.
Proof.
  intros Hne.
  exists (BlackScholes_table Z S K r sigma T CashCall),
         (BlackScholes_table Z S K r sigma T CashPut).
  split; [exact (BlackScholes_off_money Z S K r sigma T CashCall Hne) |].
  split; [exact (BlackScholes_off_money Z S K r sigma T CashPut Hne) |].
  apply BlackScholes_cash_sum.
Qed.

End Parities.

(** C6. Vanilla put-call parity of the Black-Scholes pricer: off the money
    both calls return, and call minus put is [S - K * exp (- r * T)], for a
    distribution function with [cdf x + cdf (- x) = 1]. *)
Theorem BlackScholes_put_call_parity (Z : StandardNormalDistribution)
    (S K r sigma T : R) :
  (forall x : R, cdf Z x + cdf Z (- x) = 1) ->
  0 < S -> 0 < K -> S <> K -> 0 < sigma -> 0 < T ->
  exists c p : R,
    BlackScholes Z S K r sigma T "van call" = Return c /\
    BlackScholes Z S K r sigma T "van put" = Return p /\
    c - p = S - K * exp (- (r * T)).
Proof.
  intros Hsym _ _ Hne _ _.
  exists (BlackScholes_table Z S K r sigma T VanillaCall),
         (BlackScholes_table Z S K r sigma T VanillaPut).
  split; [exact (BlackScholes_off_money Z S K r sigma T VanillaCall Hne) |].
  split; [exact (BlackScholes_off_money Z S K r sigma T VanillaPut Hne) |].
  apply BlackScholes_vanilla_difference, Hsym.
Qed.

Lemma BlackScholes_put_call_parity_witness :
  exists c p : R,
    BlackScholes StdNormal 50 20 0.13 0.2 4 "van call" = Return c /\
    BlackScholes StdNormal 50 20 0.13 0.2 4 "van put" = Return p /\
    c - p = 50 - 20 * exp (- (0.13 * 4)).
Proof.
  apply (BlackScholes_put_call_parity StdNormal 50 20 0.13 0.2 4 normal_cdf_sym); lra.
Defined.

(** C10. Put-call parity of the Bachelier pricer, without a discount
    factor: off the money both calls return, and call minus put is
    [Spot - Strike], for a density with [pdf (- x) = pdf x] and a distribution
    function with [cdf x + cdf (- x) = 1]. *)
Theorem Bachelier_put_call_parity (Z : StandardNormalDistribution)
    (Spot Strike sigma T : R) :
  (forall x : R, pdf Z (- x) = pdf Z x) ->
  (forall x : R, cdf Z x + cdf Z (- x) = 1) ->
  0 < Spot -> 0 < Strike -> Spot <> Strike -> 0 < sigma -> 0 < T ->
  exists c p : R,
    Bachelier Z Spot Strike sigma T "van call" = Return c /\
    Bachelier Z Spot Strike sigma T "van put" = Return p /\
    c - p = Spot - Strike.
Proof.
  intros Heven Hsym _ _ Hne _ _.
  exists (Bachelier_table Z Spot Strike sigma T VanillaCall),
         (Bachelier_table Z Spot Strike sigma T VanillaPut).
  split; [exact (Bachelier_off_money Z Spot Strike sigma T VanillaCall Hne) |].
  split; [exact (Bachelier_off_money Z Spot Strike sigma T VanillaPut Hne) |].
  cbn [Bachelier_table]. cbv zeta.
  pose proof (Hsym (xs Spot Strike sigma T)) as Hx.
  rewrite Heven.
  set (x := xs Spot Strike sigma T) in *.
  replace (cdf Z (- x)) with (1 - cdf Z x) by lra.
  ring.
Qed.

Lemma Bachelier_put_call_parity_witness :
  exists c p : R,
    Bachelier StdNormal 50 20 0.2 4 "van call" = Return c /\
    Bachelier StdNormal 50 20 0.2 4 "van put" = Return p /\
    c - p = 50 - 20.
Proof.
  apply (Bachelier_put_call_parity StdNormal 50 20 0.2 4
           normal_pdf_even normal_cdf_sym); lra.
Defined.

(** C7, as amended.  Cash-or-nothing parity of the Black-Scholes pricer
    holds off the money: for [S <> K] both calls return and the two prices
    add up to [exp (- r * T)]. *)
Theorem BlackScholes_cash_parity (S K r sigma T : R) :
  0 < S -> 0 < K -> 0 < sigma -> 0 < T -> S <> K ->
  cash_parity StdNormal S K r sigma T.
Proof.
  intros _ _ _ _ Hne. apply cash_parity_off_money; [exact normal_cdf_sym | exact Hne].
Qed.

Lemma BlackScholes_cash_parity_witness : cash_parity StdNormal 50 20 0.13 0.2 4.
Proof. apply (BlackScholes_cash_parity 50 20 0.13 0.2 4); lra. Defined.

(** C7, as stated, fails at the money: for [S = K = 1], [r = 0],
    [sigma = 1], [T = 1] both cash-or-nothing calls return
    [sqrt (0.5 / pi)], and twice that is not [exp 0 = 1]. *)
Lemma cash_parity_fails_at_the_money :
  0 < 1 /\ ~ cash_parity StdNormal 1 1 0 1 1.
Proof.
  split; [lra |]. intros [c [p [Hc [Hp E]]]].
  rewrite BlackScholes_at_the_money in Hc, Hp by reflexivity.
  injection Hc as <-. injection Hp as <-.
  unfold at_the_money_value in E.
  replace (- (0 * 1)) with 0 in E by ring. rewrite exp_0 in E.
  pose proof PI2_1 as P.
  assert (Q : 0 <= 0.5 * 1 / PI).
  { apply Rmult_le_pos; [lra |]. apply Rlt_le, Rinv_0_lt_compat. lra. }
  pose proof (sqrt_sqrt _ Q) as SQ.
  set (s := sqrt (0.5 * 1 / PI)) in *.
  assert (Hs : s = / 2) by lra.
  rewrite Hs in SQ.
  assert (HP : 0.5 * 1 / PI * PI = 0.5) by (field; lra).
  rewrite <- SQ in HP. lra.
Qed.

(** * Sign of the prices *)

Lemma at_the_money_value_nonneg (Spot Vol T : R) :
  0 < Spot -> 0 < Vol -> 0 <= at_the_money_value Spot Vol T.
Proof.
  intros HS HV. unfold at_the_money_value.
  apply Rmult_le_pos; [apply Rmult_le_pos; lra | apply sqrt_pos].
Qed.

(** [exp ((y^2 - x^2) / 2)] is the ratio [pdf x / pdf y]. *)
Lemma normal_pdf_ratio (x y : R) :
  exp ((y * y - x * x) / 2) * normal_pdf y = normal_pdf x.
Proof.
  unfold normal_pdf.
  replace (exp ((y * y - x * x) / 2) * (1 / sqrt (2 * PI) * exp (- (y * y) / 2)))
    with (1 / sqrt (2 * PI) * (exp ((y * y - x * x) / 2) * exp (- (y * y) / 2)))
    by ring.
  rewrite <- exp_plus. do 2 f_equal. field.
Qed.

Lemma normal_cdf_mills (y : R) : normal_cdf y = mills y * normal_pdf y.
Proof.
  rewrite mills_spec. pose proof (normal_pdf_pos y). field. lra.
Qed.

Lemma normal_cdf_ratio (x y : R) :
  y <= x -> exp ((y * y - x * x) / 2) * normal_cdf y <= normal_cdf x.
Proof.
  intros Hyx.
  rewrite (normal_cdf_mills y), (normal_cdf_mills x).
  replace (exp ((y * y - x * x) / 2) * (mills y * normal_pdf y))
    with (mills y * (exp ((y * y - x * x) / 2) * normal_pdf y)) by ring.
  rewrite normal_pdf_ratio.
  apply Rmult_le_compat_r.
  - apply Rlt_le, normal_pdf_pos.
  - apply mills_increasing, Hyx.
Qed.

Section PriceSign.

Variables Spot Strike r Vol T : R.
Hypothesis Spot_pos : 0 < Spot.
Hypothesis Strike_pos : 0 < Strike.
Hypothesis Vol_pos : 0 < Vol.
Hypothesis T_pos : 0 < T.

Let a := d1 Spot Strike r Vol T.
Let b := d2 Spot Strike r Vol T.

Lemma sqrt_T_facts : 0 < sqrt T /\ sqrt T * sqrt T = T.
Proof. split; [apply sqrt_lt_R0, T_pos | apply sqrt_sqrt; lra]. Qed.

Lemma offsets_by_sqrt :
  a = (ln (Spot / Strike) + (r + / 2 * Vol ^ 2) * (sqrt T * sqrt T)) / (Vol * sqrt T) /\
  b = (ln (Spot / Strike) + (r - / 2 * Vol ^ 2) * (sqrt T * sqrt T)) / (Vol * sqrt T).
Proof.
  destruct sqrt_T_facts as [_ Hss].
  unfold a, b, d1, d2. rewrite half_eq, Hss. split; reflexivity.
Qed.

Lemma d2_le_d1 : b <= a.
Proof.
  destruct sqrt_T_facts as [Hs _]. destruct offsets_by_sqrt as [Ea Eb].
  assert (E : a - b = Vol * sqrt T) by (rewrite Ea, Eb; field; lra).
  assert (0 < Vol * sqrt T) by (apply Rmult_lt_0_compat; assumption).
  lra.
Qed.

Lemma d1_d2_squares : (b * b - a * a) / 2 = - (ln (Spot / Strike) + r * T).
Proof.
  destruct sqrt_T_facts as [Hs Hss]. destruct offsets_by_sqrt as [Ea Eb].
  replace (r * T) with (r * (sqrt T * sqrt T)) by (rewrite Hss; reflexivity).
  rewrite Ea, Eb. field. lra.
Qed.

Lemma discounted_strike :
  Strike * exp (- (r * T)) = Spot * exp ((b * b - a * a) / 2).
Proof.
  rewrite d1_d2_squares.
  replace (- (ln (Spot / Strike) + r * T))
    with (- ln (Spot / Strike) + - (r * T)) by ring.
  rewrite exp_plus, (exp_Ropp (ln (Spot / Strike))), exp_ln.
  - field. lra.
  - apply Rdiv_lt_0_compat; assumption.
Qed.

Lemma BlackScholes_table_nonneg (v : variant) :
  0 <= BlackScholes_table StdNormal Spot Strike r Vol T v.
Proof.
  pose proof (exp_pos (- (r * T))) as He.
  destruct v; cbn [BlackScholes_table cdf pdf StdNormal]; cbv zeta;
    fold a; fold b.
  - replace (Spot * normal_cdf a - Strike * exp (- (r * T)) * normal_cdf b)
      with (Spot * (normal_cdf a - exp ((b * b - a * a) / 2) * normal_cdf b))
      by (rewrite discounted_strike; ring).
    pose proof (normal_cdf_ratio a b d2_le_d1).
    apply Rmult_le_pos; lra.
  - replace (- (Spot * normal_cdf (- a)) + Strike * exp (- (r * T)) * normal_cdf (- b))
      with (Spot * (exp ((b * b - a * a) / 2) * normal_cdf (- b) - normal_cdf (- a)))
      by (rewrite discounted_strike; ring).
    assert (Hab : - a <= - b) by (pose proof d2_le_d1; lra).
    pose proof (normal_cdf_ratio (- b) (- a) Hab) as H.
    replace ((- a * - a - - b * - b) / 2) with (- ((b * b - a * a) / 2)) in H by field.
    rewrite exp_Ropp in H.
    pose proof (exp_pos ((b * b - a * a) / 2)) as HE.
    set (E := exp ((b * b - a * a) / 2)) in *.
    assert (H' : normal_cdf (- a) <= E * normal_cdf (- b)).
    { apply Rmult_le_reg_l with (/ E); [apply Rinv_0_lt_compat, HE |].
      rewrite <- Rmult_assoc, Rinv_l, Rmult_1_l by lra. exact H. }
    apply Rmult_le_pos; lra.
  - apply Rmult_le_pos; [lra | apply normal_cdf_bounds].
  - apply Rmult_le_pos; [lra | apply normal_cdf_bounds].
  - apply Rmult_le_pos; [lra | apply Rlt_le, normal_pdf_pos].
  - apply Rmult_le_pos; [lra | apply Rlt_le, normal_pdf_pos].
Qed.

Lemma Bachelier_table_nonneg (v : variant) :
  v <> AssetPut -> 0 <= Bachelier_table StdNormal Spot Strike Vol T v.
Proof.
  intros Hv. destruct sqrt_T_facts as [Hs _].
  assert (Hw : 0 < Spot * Vol * sqrt T)
    by (apply Rmult_lt_0_compat; [apply Rmult_lt_0_compat |]; assumption).
  assert (Ex : Spot * Vol * sqrt T * xs Spot Strike Vol T = Strike - Spot)
    by (unfold xs; field; lra).
  set (w := Spot * Vol * sqrt T) in *. set (x := xs Spot Strike Vol T) in *.
  pose proof (normal_cdf_bounds x) as [C1 _].
  pose proof (normal_cdf_bounds (- x)) as [C2 _].
  pose proof (normal_pdf_pos x) as P1. pose proof (normal_pdf_pos (- x)) as P2.
  destruct v; cbn [Bachelier_table cdf pdf StdNormal]; cbv zeta; fold x; fold w.
  - replace ((Spot - Strike) * normal_cdf (- x) + w * normal_pdf (- x))
      with (w * premium (- x))
      by (unfold premium; replace (Spot - Strike) with (- (w * x)) by lra; ring).
    apply Rmult_le_pos; [lra | apply premium_nonneg].
  - replace ((Strike - Spot) * normal_cdf x + w * normal_pdf x)
      with (w * premium x) by (unfold premium; rewrite <- Ex; ring).
    apply Rmult_le_pos; [lra | apply premium_nonneg].
  - exact C2.
  - exact C1.
  - apply Rplus_le_le_0_compat; apply Rmult_le_pos; lra.
  - contradiction Hv; reflexivity.
Qed.

End PriceSign.

Lemma nonnegative_Return (v : R) : 0 <= v -> nonnegative (Return v).
Proof. intros H. exists v. split; [reflexivity | exact H]. Qed.

(** C8, as amended.  In exact real arithmetic (every [double] operation
    read as the operation on [R], rounding left aside), with [Spot],
    [Strike], [Volatility] and [Maturity] positive and
    [StandardNormalDistribution] as the specification gives it, the
    Black-Scholes price is [>= 0] for each of the six tokens, and so is the
    Bachelier price except for ["aon put"] off the money.  Nothing is said
    about the rounded value a [double] evaluation returns, which can fall
    below [0] by rounding error where the exact price is close to [0]. *)
Theorem prices_nonnegative (Spot Strike r Vol T : R) (type : string) :
  0 < Spot -> 0 < Strike -> 0 < Vol -> 0 < T -> recognized type ->
  nonnegative (BlackScholes StdNormal Spot Strike r Vol T type) /\
  (type <> "aon put"%string \/ Spot = Strike ->
   nonnegative (Bachelier StdNormal Spot Strike Vol T type)).
Proof.
  intros HS HK HV HT Hrec.
  destruct (recognized_inv type Hrec) as [v ->].
  destruct (Req_dec Spot Strike) as [Heq | Hne].
  - split; [| intros _].
    + rewrite BlackScholes_at_the_money by exact Heq.
      apply nonnegative_Return, at_the_money_value_nonneg; assumption.
    + rewrite Bachelier_at_the_money by exact Heq.
      apply nonnegative_Return, at_the_money_value_nonneg; assumption.
  - split; [| intros Hv].
    + rewrite BlackScholes_off_money by exact Hne.
      apply nonnegative_Return, BlackScholes_table_nonneg; assumption.
    + rewrite Bachelier_off_money by exact Hne.
      apply nonnegative_Return, Bachelier_table_nonneg; try assumption.
      intros ->. destruct Hv as [Hv | Hv]; [apply Hv; reflexivity | contradiction].
Qed.

Lemma prices_nonnegative_witness :
  nonnegative (BlackScholes StdNormal 50 20 0.13 0.2 4 "van call") /\
  (("van call" <> "aon put")%string \/ 50 = 20 ->
   nonnegative (Bachelier StdNormal 50 20 0.2 4 "van call")).
Proof.
  apply (prices_nonnegative 50 20 0.13 0.2 4 "van call");
    [lra | lra | lra | lra | exact (recognized_token VanillaCall)].
Defined.

(** C8, as stated, fails for the Bachelier asset-or-nothing put: with
    [Spot = 2], [Strike = 1], [Volatility = 10], [Maturity = 1] the price is
    [2 * cdf (-1/20) - 20 * pdf (-1/20)], below [2 - 6]. *)
Lemma Bachelier_asset_put_negative :
  0 < 2 /\ 0 < 1 /\ 0 < 10 /\ recognized "aon put" /\
  ~ nonnegative (Bachelier StdNormal 2 1 10 1 "aon put").
Proof.
  split; [lra |]. split; [lra |]. split; [lra |].
  split; [exact (recognized_token AssetPut) |].
  intros [v [Hv Hpos]].
  assert (Hne : 2 <> 1) by lra.
  pose proof (Bachelier_off_money StdNormal 2 1 10 1 AssetPut Hne) as E.
  cbn [token] in E. rewrite E in Hv. injection Hv as <-.
  cbn [Bachelier_table cdf pdf StdNormal] in Hpos. cbv zeta in Hpos.
  assert (Ex : xs 2 1 10 1 = - / 20) by (unfold xs; rewrite sqrt_1; field).
  rewrite Ex, sqrt_1 in Hpos.
  pose proof (normal_cdf_bounds (- / 20)) as [_ C].
  assert (P : 3 / 10 < normal_pdf (- / 20)).
  { unfold normal_pdf.
    pose proof sqrt_2PI_pos as S0.
    assert (S2 : sqrt (2 * PI) * sqrt (2 * PI) = 2 * PI)
      by (apply sqrt_sqrt; pose proof PI_RGT_0; lra).
    pose proof PI_4 as P4.
    assert (S3 : sqrt (2 * PI) < 3) by nra.
    pose proof (exp_ineq1_le (- (- / 20 * - / 20) / 2)) as X.
    assert (I3 : / 3 < 1 / sqrt (2 * PI)).
    { unfold Rdiv. rewrite Rmult_1_l. apply Rinv_lt_contravar; [| exact S3].
      apply Rmult_lt_0_compat; lra. }
    apply Rlt_le_trans with (/ 3 * (1 + - (- / 20 * - / 20) / 2)); [lra |].
    apply Rmult_le_compat; lra. }
  lra.
Qed.

(** * Further properties of the pricers

    ** When the pricers throw *)

Lemma recognized_dec (type : string) : {recognized type} + {~ recognized type}.
Proof. apply in_dec, string_dec. Qed.

(** X1. Bachelier throws exactly when it is called off the money with a
    [type] that is none of the six tokens, and then the exception is
    [invalid_argument] with the message of [type_error]; on every other
    input it returns. *)
Theorem Bachelier_throws_iff (Z : StandardNormalDistribution)
    (Spot Strike Vol T : R) (type : string) (e : exn) :
  Bachelier Z Spot Strike Vol T type = Throw e <->
  e = type_error /\ Spot <> Strike /\ ~ recognized type.
Proof.
  split.
  - intros H. destruct (Req_dec Spot Strike) as [Heq | Hne].
    + rewrite Bachelier_at_the_money in H by exact Heq. discriminate H.
    + destruct (recognized_dec type) as [Hr | Hr].
      * destruct (recognized_inv _ Hr) as [v ->].
        rewrite Bachelier_off_money in H by exact Hne. discriminate H.
      * rewrite Bachelier_unrecognized in H by assumption.
        injection H as <-. auto.
  - intros (-> & Hne & Hr). apply Bachelier_unrecognized; assumption.
Qed.

(** X2. Black-Scholes throws on exactly the same inputs, whatever the
    rate: off the money with a [type] that is none of the six tokens. *)
Theorem BlackScholes_throws_iff (Z : StandardNormalDistribution)
    (Spot Strike r Vol T : R) (type : string) (e : exn) :
  BlackScholes Z Spot Strike r Vol T type = Throw e <->
  e = type_error /\ Spot <> Strike /\ ~ recognized type.
Proof.
  split.
  - intros H. destruct (Req_dec Spot Strike) as [Heq | Hne].
    + rewrite BlackScholes_at_the_money in H by exact Heq. discriminate H.
    + destruct (recognized_dec type) as [Hr | Hr].
      * destruct (recognized_inv _ Hr) as [v ->].
        rewrite BlackScholes_off_money in H by exact Hne. discriminate H.
      * rewrite BlackScholes_unrecognized in H by assumption.
        injection H as <-. auto.
  - intros (-> & Hne & Hr). apply BlackScholes_unrecognized; assumption.
Qed.

(** ** Relations between the Bachelier variants *)

(** X3. With positive inputs and off the money the Bachelier vanilla prices are made of the binary
    ones: the call is the asset-or-nothing call minus [Strike] cash-or-nothing
    calls, the put is [Strike] cash-or-nothing puts minus the asset-or-nothing
    put.  This holds for every distribution. *)
Theorem Bachelier_vanilla_decomposition (Z : StandardNormalDistribution)
    (Spot Strike Vol T : R) :
  0 < Spot -> 0 < Vol -> 0 < T -> Spot <> Strike ->
  exists vc vp cc cp ac ap : R,
    Bachelier Z Spot Strike Vol T "van call" = Return vc /\
    Bachelier Z Spot Strike Vol T "van put" = Return vp /\
    Bachelier Z Spot Strike Vol T "con call" = Return cc /\
    Bachelier Z Spot Strike Vol T "con put" = Return cp /\
    Bachelier Z Spot Strike Vol T "aon call" = Return ac /\
    Bachelier Z Spot Strike Vol T "aon put" = Return ap /\
    vc = ac - Strike * cc /\
    vp = Strike * cp - ap.
Proof.
  intros _ _ _ Hne.
  pose proof (fun v => Bachelier_off_money Z Spot Strike Vol T v Hne) as E.
  exists (Bachelier_table Z Spot Strike Vol T VanillaCall),
         (Bachelier_table Z Spot Strike Vol T VanillaPut),
         (Bachelier_table Z Spot Strike Vol T CashCall),
         (Bachelier_table Z Spot Strike Vol T CashPut),
         (Bachelier_table Z Spot Strike Vol T AssetCall),
         (Bachelier_table Z Spot Strike Vol T AssetPut).
  split; [exact (E VanillaCall) |]. split; [exact (E VanillaPut) |].
  split; [exact (E CashCall) |]. split; [exact (E CashPut) |].
  split; [exact (E AssetCall) |]. split; [exact (E AssetPut) |].
  cbn [Bachelier_table]. cbv zeta. split; ring.
Qed.

Lemma Bachelier_vanilla_decomposition_witness :
  exists vc vp cc cp ac ap : R,
    Bachelier StdNormal 50 20 0.2 4 "van call" = Return vc /\
    Bachelier StdNormal 50 20 0.2 4 "van put" = Return vp /\
    Bachelier StdNormal 50 20 0.2 4 "con call" = Return cc /\
    Bachelier StdNormal 50 20 0.2 4 "con put" = Return cp /\
    Bachelier StdNormal 50 20 0.2 4 "aon call" = Return ac /\
    Bachelier StdNormal 50 20 0.2 4 "aon put" = Return ap /\
    vc = ac - 20 * cc /\
    vp = 20 * cp - ap.
Proof. apply (Bachelier_vanilla_decomposition StdNormal 50 20 0.2 4); lra. Defined.

(** X4. With positive inputs and off the money the two Bachelier cash-or-nothing prices add up to
    [1], for a distribution function with [cdf x + cdf (- x) = 1]. *)
Theorem Bachelier_cash_parity (Z : StandardNormalDistribution)
    (Spot Strike Vol T : R) :
  (forall x : R, cdf Z x + cdf Z (- x) = 1) ->
  0 < Spot -> 0 < Vol -> 0 < T -> Spot <> Strike ->
  exists c p : R,
    Bachelier Z Spot Strike Vol T "con call" = Return c /\
    Bachelier Z Spot Strike Vol T "con put" = Return p /\
    c + p = 1.
Proof.
  intros Hsym _ _ _ Hne.
  exists (Bachelier_table Z Spot Strike Vol T CashCall),
         (Bachelier_table Z Spot Strike Vol T CashPut).
  split; [exact (Bachelier_off_money Z Spot Strike Vol T CashCall Hne) |].
  split; [exact (Bachelier_off_money Z Spot Strike Vol T CashPut Hne) |].
  cbn [Bachelier_table]. cbv zeta.
  pose proof (Hsym (xs Spot Strike Vol T)). lra.
Qed.

Lemma Bachelier_cash_parity_witness :
  exists c p : R,
    Bachelier StdNormal 50 20 0.2 4 "con call" = Return c /\
    Bachelier StdNormal 50 20 0.2 4 "con put" = Return p /\
    c + p = 1.
Proof.
  apply (Bachelier_cash_parity StdNormal 50 20 0.2 4 normal_cdf_sym); lra.
Defined.

(** X5. With positive inputs and off the money the two Bachelier asset-or-nothing prices add up to
    [Spot], for a density with [pdf (- x) = pdf x] and a distribution
    function with [cdf x + cdf (- x) = 1]. *)
Theorem Bachelier_asset_parity (Z : StandardNormalDistribution)
    (Spot Strike Vol T : R) :
  (forall x : R, pdf Z (- x) = pdf Z x) ->
  (forall x : R, cdf Z x + cdf Z (- x) = 1) ->
  0 < Spot -> 0 < Vol -> 0 < T -> Spot <> Strike ->
  exists c p : R,
    Bachelier Z Spot Strike Vol T "aon call" = Return c /\
    Bachelier Z Spot Strike Vol T "aon put" = Return p /\
    c + p = Spot.
Proof.
  intros Heven Hsym _ _ _ Hne.
  exists (Bachelier_table Z Spot Strike Vol T AssetCall),
         (Bachelier_table Z Spot Strike Vol T AssetPut).
  split; [exact (Bachelier_off_money Z Spot Strike Vol T AssetCall Hne) |].
  split; [exact (Bachelier_off_money Z Spot Strike Vol T AssetPut Hne) |].
  cbn [Bachelier_table]. cbv zeta. rewrite Heven.
  pose proof (Hsym (xs Spot Strike Vol T)) as Hx.
  set (x := xs Spot Strike Vol T) in *.
  replace (cdf Z (- x)) with (1 - cdf Z x) by lra. ring.
Qed.

Lemma Bachelier_asset_parity_witness :
  exists c p : R,
    Bachelier StdNormal 50 20 0.2 4 "aon call" = Return c /\
    Bachelier StdNormal 50 20 0.2 4 "aon put" = Return p /\
    c + p = 50.
Proof.
  apply (Bachelier_asset_parity StdNormal 50 20 0.2 4
           normal_pdf_even normal_cdf_sym); lra.
Defined.

(** X6. With positive inputs and off the money the Black-Scholes asset-or-nothing call and put have
    the same price, for a density with [pdf (- x) = pdf x]: both branches take
    the density of the same offset up to sign. *)
Theorem BlackScholes_asset_call_is_put (Z : StandardNormalDistribution)
    (Spot Strike r Vol T : R) :
  (forall x : R, pdf Z (- x) = pdf Z x) ->
  0 < Spot -> 0 < Strike -> 0 < Vol -> 0 < T -> Spot <> Strike ->
  exists v : R,
    BlackScholes Z Spot Strike r Vol T "aon call" = Return v /\
    BlackScholes Z Spot Strike r Vol T "aon put" = Return v.
Proof.
  intros Heven _ _ _ _ Hne.
  exists (BlackScholes_table Z Spot Strike r Vol T AssetCall).
  split; [exact (BlackScholes_off_money Z Spot Strike r Vol T AssetCall Hne) |].
  transitivity (Return (BlackScholes_table Z Spot Strike r Vol T AssetPut));
    [exact (BlackScholes_off_money Z Spot Strike r Vol T AssetPut Hne) |].
  cbn [BlackScholes_table]. cbv zeta. rewrite Heven. reflexivity.
Qed.

Lemma BlackScholes_asset_call_is_put_witness :
  exists v : R,
    BlackScholes StdNormal 50 20 0.13 0.2 4 "aon call" = Return v /\
    BlackScholes StdNormal 50 20 0.13 0.2 4 "aon put" = Return v.
Proof.
  apply (BlackScholes_asset_call_is_put StdNormal 50 20 0.13 0.2 4
           normal_pdf_even); lra.
Defined.

(** ** Bounds with the standard normal distribution *)

(** X7. In exact real arithmetic (rounding of [double] left aside), with
    positive inputs and off the money, the Black-Scholes vanilla call lies
    between [Spot - Strike * exp (- r * T)] and [Spot], and the vanilla put
    between [Strike * exp (- r * T) - Spot] and [Strike * exp (- r * T)].
    A rounded [double] result can miss a bound by rounding error. *)
Theorem BlackScholes_vanilla_bounds (Spot Strike r Vol T : R) :
  0 < Spot -> 0 < Strike -> 0 < Vol -> 0 < T -> Spot <> Strike ->
  exists c p : R,
    BlackScholes StdNormal Spot Strike r Vol T "van call" = Return c /\
    BlackScholes StdNormal Spot Strike r Vol T "van put" = Return p /\
    Spot - Strike * exp (- (r * T)) <= c <= Spot /\
    Strike * exp (- (r * T)) - Spot <= p <= Strike * exp (- (r * T)).
Proof.
  intros HS HK HV HT Hne.
  exists (BlackScholes_table StdNormal Spot Strike r Vol T VanillaCall),
         (BlackScholes_table StdNormal Spot Strike r Vol T VanillaPut).
  split; [exact (BlackScholes_off_money StdNormal Spot Strike r Vol T VanillaCall Hne) |].
  split; [exact (BlackScholes_off_money StdNormal Spot Strike r Vol T VanillaPut Hne) |].
  pose proof (BlackScholes_vanilla_difference StdNormal normal_cdf_sym
                Spot Strike r Vol T) as D.
  pose proof (BlackScholes_table_nonneg Spot Strike r Vol T HS HK HV HT VanillaCall) as C0.
  pose proof (BlackScholes_table_nonneg Spot Strike r Vol T HS HK HV HT VanillaPut) as P0.
  assert (CS : BlackScholes_table StdNormal Spot Strike r Vol T VanillaCall <= Spot).
  { cbn [BlackScholes_table cdf StdNormal]. cbv zeta.
    pose proof (normal_cdf_bounds (d1 Spot Strike r Vol T)) as [_ A1].
    pose proof (normal_cdf_bounds (d2 Spot Strike r Vol T)) as [B0 _].
    pose proof (exp_pos (- (r * T))) as He.
    assert (0 <= Strike * exp (- (r * T)) * normal_cdf (d2 Spot Strike r Vol T))
      by (apply Rmult_le_pos; [apply Rmult_le_pos; lra | exact B0]).
    assert (Spot * normal_cdf (d1 Spot Strike r Vol T) <= Spot * 1)
      by (apply Rmult_le_compat_l; lra).
    lra. }
  lra.
Qed.

Lemma BlackScholes_vanilla_bounds_witness :
  exists c p : R,
    BlackScholes StdNormal 50 20 0.13 0.2 4 "van call" = Return c /\
    BlackScholes StdNormal 50 20 0.13 0.2 4 "van put" = Return p /\
    50 - 20 * exp (- (0.13 * 4)) <= c <= 50 /\
    20 * exp (- (0.13 * 4)) - 50 <= p <= 20 * exp (- (0.13 * 4)).
Proof. apply (BlackScholes_vanilla_bounds 50 20 0.13 0.2 4); lra. Defined.

(** X8. With positive inputs and off the money, the cash-or-nothing prices
    are bounded by what they pay: the Bachelier ones lie in [[0, 1]], the
    Black-Scholes ones in [[0, exp (- r * T)]]. *)
Theorem cash_prices_bounded (Spot Strike r Vol T : R) (type : string) :
  0 < Spot -> 0 < Strike -> 0 < Vol -> 0 < T -> Spot <> Strike ->
  type = "con call"%string \/ type = "con put"%string ->
  exists b s : R,
    Bachelier StdNormal Spot Strike Vol T type = Return b /\
    BlackScholes StdNormal Spot Strike r Vol T type = Return s /\
    0 <= b <= 1 /\
    0 <= s <= exp (- (r * T)).
Proof.
  intros _ _ _ _ Hne Htype.
  pose proof (exp_pos (- (r * T))) as He.
  assert (Hv : exists v, type = token v /\ (v = CashCall \/ v = CashPut)).
  { destruct Htype as [-> | ->]; [exists CashCall | exists CashPut]; auto. }
  destruct Hv as [v [-> Hv]].
  exists (Bachelier_table StdNormal Spot Strike Vol T v),
         (BlackScholes_table StdNormal Spot Strike r Vol T v).
  split; [apply Bachelier_off_money, Hne |].
  split; [apply BlackScholes_off_money, Hne |].
  destruct Hv as [-> | ->]; cbn [Bachelier_table BlackScholes_table cdf StdNormal];
    cbv zeta.
  - pose proof (normal_cdf_bounds (- xs Spot Strike Vol T)).
    pose proof (normal_cdf_bounds (d2 Spot Strike r Vol T)). nra.
  - pose proof (normal_cdf_bounds (xs Spot Strike Vol T)).
    pose proof (normal_cdf_bounds (- d2 Spot Strike r Vol T)). nra.
Qed.

Lemma cash_prices_bounded_witness :
  exists b s : R,
    Bachelier StdNormal 50 20 0.2 4 "con put" = Return b /\
    BlackScholes StdNormal 50 20 0.13 0.2 4 "con put" = Return s /\
    0 <= b <= 1 /\
    0 <= s <= exp (- (0.13 * 4)).
Proof.
  apply (cash_prices_bounded 50 20 0.13 0.2 4 "con put");
    [lra | lra | lra | lra | lra | right; reflexivity].
Defined.

(** ** The Bachelier vanilla prices at every strike *)

Lemma sqrt_half_over_PI (T : R) : sqrt (0.5 * T / PI) = sqrt T / sqrt (2 * PI).
Proof.
  pose proof PI_RGT_0 as P.
  replace (0.5 * T / PI) with (T / (2 * PI)) by (rewrite half_eq; field; lra).
  apply sqrt_div_alt. lra.
Qed.

Lemma xs_at_the_money (Spot Vol T : R) : xs Spot Spot Vol T = 0.
Proof. unfold xs, Rdiv. replace (Spot - Spot) with 0 by ring. ring. Qed.

Section BachelierVanilla.

Variables Spot Strike Vol T : R.
Hypothesis Spot_pos : 0 < Spot.
Hypothesis Vol_pos : 0 < Vol.
Hypothesis T_pos : 0 < T.

Let w := Spot * Vol * sqrt T.

Lemma total_deviation_pos : 0 < w.
Proof.
  unfold w. apply Rmult_lt_0_compat; [apply Rmult_lt_0_compat; assumption |].
  apply sqrt_lt_R0, T_pos.
Qed.

Lemma xs_scaled : w * xs Spot Strike Vol T = Strike - Spot.
Proof. pose proof total_deviation_pos. unfold xs. fold w. field. lra. Qed.

Lemma Bachelier_call_premium :
  Bachelier_table StdNormal Spot Strike Vol T VanillaCall
  = w * premium (- xs Spot Strike Vol T).
Proof.
  pose proof xs_scaled as E. cbn [Bachelier_table cdf pdf StdNormal]. cbv zeta.
  fold w. unfold premium.
  replace (Spot - Strike) with (- (w * xs Spot Strike Vol T)) by lra. ring.
Qed.

Lemma Bachelier_put_premium :
  Bachelier_table StdNormal Spot Strike Vol T VanillaPut
  = w * premium (xs Spot Strike Vol T).
Proof.
  pose proof xs_scaled as E. cbn [Bachelier_table cdf pdf StdNormal]. cbv zeta.
  fold w. unfold premium. rewrite <- E. ring.
Qed.

End BachelierVanilla.

Lemma Bachelier_vanilla_table (Spot Strike Vol T : R) (v : variant) :
  0 < Spot -> 0 < Vol -> 0 < T -> v = VanillaCall \/ v = VanillaPut ->
  Bachelier StdNormal Spot Strike Vol T (token v)
  = Return (Bachelier_table StdNormal Spot Strike Vol T v).
Proof.
  intros HS HV HT Hv.
  destruct (Req_dec Spot Strike) as [Heq | Hne];
    [| apply Bachelier_off_money, Hne].
  rewrite Bachelier_at_the_money by exact Heq. f_equal. subst Strike.
  unfold at_the_money_value. rewrite sqrt_half_over_PI.
  pose proof sqrt_2PI_pos as P.
  destruct Hv as [-> | ->].
  - rewrite Bachelier_call_premium by assumption.
    rewrite xs_at_the_money, Ropp_0. unfold premium.
    rewrite normal_pdf_0. field. lra.
  - rewrite Bachelier_put_premium by assumption.
    rewrite xs_at_the_money. unfold premium.
    rewrite normal_pdf_0. field. lra.
Qed.

(** X9. For the vanilla call and put the at-the-money shortcut of Bachelier
    agrees with the general branch: with [Spot], [Vol] and [T] positive the
    price is the vanilla formula at the offset [xs] for every strike,
    [Strike = Spot] included. *)
Theorem Bachelier_vanilla_any_strike (Spot Strike Vol T : R) :
  0 < Spot -> 0 < Vol -> 0 < T ->
  let x := (Strike - Spot) / (Spot * Vol * sqrt T) in
  Bachelier StdNormal Spot Strike Vol T "van call"
  = Return ((Spot - Strike) * normal_cdf (- x)
            + Spot * Vol * sqrt T * normal_pdf (- x)) /\
  Bachelier StdNormal Spot Strike Vol T "van put"
  = Return ((Strike - Spot) * normal_cdf x + Spot * Vol * sqrt T * normal_pdf x).
Proof.
  intros HS HV HT x. split.
  - exact (Bachelier_vanilla_table Spot Strike Vol T VanillaCall HS HV HT
             (or_introl eq_refl)).
  - exact (Bachelier_vanilla_table Spot Strike Vol T VanillaPut HS HV HT
             (or_intror eq_refl)).
Qed.

Lemma Bachelier_vanilla_any_strike_witness :
  Bachelier StdNormal 50 50 0.2 4 "van call"
  = Return ((50 - 50) * normal_cdf (- ((50 - 50) / (50 * 0.2 * sqrt 4)))
            + 50 * 0.2 * sqrt 4 * normal_pdf (- ((50 - 50) / (50 * 0.2 * sqrt 4)))).
Proof. apply (Bachelier_vanilla_any_strike 50 50 0.2 4); lra. Defined.

(** X10. In exact real arithmetic (rounding of [double] left aside), with
    [Spot], [Vol] and [T] positive, Bachelier put-call parity and the
    intrinsic-value bounds hold at every strike, at the money too: call
    minus put is [Spot - Strike], the call is at least [Spot - Strike] and
    the put at least [Strike - Spot].  A rounded [double] result can miss a
    bound by rounding error. *)
Theorem Bachelier_vanilla_intrinsic_value (Spot Strike Vol T : R) :
  0 < Spot -> 0 < Vol -> 0 < T ->
  exists c p : R,
    Bachelier StdNormal Spot Strike Vol T "van call" = Return c /\
    Bachelier StdNormal Spot Strike Vol T "van put" = Return p /\
    c - p = Spot - Strike /\
    Spot - Strike <= c /\
    Strike - Spot <= p.
Proof.
  intros HS HV HT.
  exists (Bachelier_table StdNormal Spot Strike Vol T VanillaCall),
         (Bachelier_table StdNormal Spot Strike Vol T VanillaPut).
  split; [exact (Bachelier_vanilla_table Spot Strike Vol T VanillaCall HS HV HT
                   (or_introl eq_refl)) |].
  split; [exact (Bachelier_vanilla_table Spot Strike Vol T VanillaPut HS HV HT
                   (or_intror eq_refl)) |].
  pose proof (Bachelier_table_nonneg Spot Strike Vol T HS HV HT VanillaCall) as C0.
  pose proof (Bachelier_table_nonneg Spot Strike Vol T HS HV HT VanillaPut) as P0.
  assert (D : Bachelier_table StdNormal Spot Strike Vol T VanillaCall
              - Bachelier_table StdNormal Spot Strike Vol T VanillaPut
              = Spot - Strike).
  { cbn [Bachelier_table cdf pdf StdNormal]. cbv zeta.
    rewrite normal_pdf_even.
    pose proof (normal_cdf_sym (xs Spot Strike Vol T)) as Hx.
    set (x := xs Spot Strike Vol T) in *.
    replace (normal_cdf (- x)) with (1 - normal_cdf x) by lra. ring. }
  assert (0 <= Bachelier_table StdNormal Spot Strike Vol T VanillaCall)
    by (apply C0; discriminate).
  assert (0 <= Bachelier_table StdNormal Spot Strike Vol T VanillaPut)
    by (apply P0; discriminate).
  lra.
Qed.

Lemma Bachelier_vanilla_intrinsic_value_witness :
  exists c p : R,
    Bachelier StdNormal 50 50 0.2 4 "van call" = Return c /\
    Bachelier StdNormal 50 50 0.2 4 "van put" = Return p /\
    c - p = 50 - 50 /\
    50 - 50 <= c /\
    50 - 50 <= p.
Proof. apply (Bachelier_vanilla_intrinsic_value 50 50 0.2 4); lra. Defined.

(** X11. In exact real arithmetic (rounding of [double] left aside), with
    [Spot], [Vol] and [T] positive, the Bachelier vanilla call does not
    increase and the vanilla put does not decrease when the strike grows.
    Where the exact prices are within rounding error of each other the
    rounded [double] results can come out in the other order. *)
Theorem Bachelier_vanilla_monotone_in_strike (Spot K1 K2 Vol T : R) :
  0 < Spot -> 0 < Vol -> 0 < T -> K1 <= K2 ->
  exists c1 c2 p1 p2 : R,
    Bachelier StdNormal Spot K1 Vol T "van call" = Return c1 /\
    Bachelier StdNormal Spot K2 Vol T "van call" = Return c2 /\
    Bachelier StdNormal Spot K1 Vol T "van put" = Return p1 /\
    Bachelier StdNormal Spot K2 Vol T "van put" = Return p2 /\
    c2 <= c1 /\
    p1 <= p2.
Proof.
  intros HS HV HT HK.
  pose proof (fun K v => Bachelier_vanilla_table Spot K Vol T v HS HV HT) as E.
  exists (Bachelier_table StdNormal Spot K1 Vol T VanillaCall),
         (Bachelier_table StdNormal Spot K2 Vol T VanillaCall),
         (Bachelier_table StdNormal Spot K1 Vol T VanillaPut),
         (Bachelier_table StdNormal Spot K2 Vol T VanillaPut).
  split; [exact (E K1 VanillaCall (or_introl eq_refl)) |].
  split; [exact (E K2 VanillaCall (or_introl eq_refl)) |].
  split; [exact (E K1 VanillaPut (or_intror eq_refl)) |].
  split; [exact (E K2 VanillaPut (or_intror eq_refl)) |].
  pose proof (total_deviation_pos Spot Vol T HS HV HT) as Hw.
  pose proof (xs_scaled Spot K1 Vol T HS HV HT) as X1.
  pose proof (xs_scaled Spot K2 Vol T HS HV HT) as X2.
  rewrite !Bachelier_call_premium, !Bachelier_put_premium by assumption.
  set (w := Spot * Vol * sqrt T) in *.
  assert (Hx : xs Spot K1 Vol T <= xs Spot K2 Vol T).
  { apply Rmult_le_reg_l with w; [exact Hw | lra]. }
  split; apply Rmult_le_compat_l; try lra; apply premium_increasing; lra.
Qed.

Lemma Bachelier_vanilla_monotone_in_strike_witness :
  exists c1 c2 p1 p2 : R,
    Bachelier StdNormal 50 20 0.2 4 "van call" = Return c1 /\
    Bachelier StdNormal 50 50 0.2 4 "van call" = Return c2 /\
    Bachelier StdNormal 50 20 0.2 4 "van put" = Return p1 /\
    Bachelier StdNormal 50 50 0.2 4 "van put" = Return p2 /\
    c2 <= c1 /\
    p1 <= p2.
Proof. apply (Bachelier_vanilla_monotone_in_strike 50 20 50 0.2 4); lra. Defined.

(** ** Change of unit

    Quoting [Spot] and [Strike] in another unit multiplies both by [k]. *)













(** ** Total volatility *)

Lemma at_the_money_value_total (Spot Vol T : R) :
  at_the_money_value Spot Vol T = Spot * (Vol * sqrt T) / sqrt (2 * PI).
Proof. unfold at_the_money_value. rewrite sqrt_half_over_PI. unfold Rdiv. ring. Qed.

(** X15. Bachelier depends on [Vol] and [T] only through [Vol * sqrt T]:
    two positive volatility and maturity pairs with the same product give
    the same result, for every distribution, strike and [type]. *)
Theorem Bachelier_total_volatility (Z : StandardNormalDistribution)
    (Spot Strike Vol1 T1 Vol2 T2 : R) (type : string) :
  0 < Spot -> 0 < Vol1 -> 0 < T1 -> 0 < Vol2 -> 0 < T2 ->
  Vol1 * sqrt T1 = Vol2 * sqrt T2 ->
  Bachelier Z Spot Strike Vol1 T1 type = Bachelier Z Spot Strike Vol2 T2 type.
Proof.
  intros _ _ _ _ _ H.
  destruct (Req_dec Spot Strike) as [Heq | Hne].
  - rewrite !Bachelier_at_the_money by exact Heq.
    rewrite !at_the_money_value_total, H. reflexivity.
  - destruct (recognized_dec type) as [Hr | Hr].
    + destruct (recognized_inv _ Hr) as [v ->].
      rewrite !Bachelier_off_money by exact Hne. f_equal.
      unfold Bachelier_table, xs.
      replace (Spot * Vol1 * sqrt T1) with (Spot * (Vol1 * sqrt T1)) by ring.
      replace (Spot * Vol2 * sqrt T2) with (Spot * (Vol2 * sqrt T2)) by ring.
      rewrite H. reflexivity.
    + rewrite !Bachelier_unrecognized by assumption. reflexivity.
Qed.

Lemma Bachelier_total_volatility_witness :
  Bachelier StdNormal 50 20 (2 * 1) (2 * 2) "aon call"
  = Bachelier StdNormal 50 20 (4 * 1) (1 * 1) "aon call".
Proof.
  apply (Bachelier_total_volatility StdNormal 50 20 (2 * 1) (2 * 2) (4 * 1) (1 * 1));
    try lra.
  rewrite !sqrt_square by lra. ring.
Defined.
